(** * DefinePlugin: serialisation of definitions and define-cache reconciliation

    A shallow embedding of [lib/DefinePlugin.js]: the code serialiser
    ([toCode], [stringifyObj]), [RuntimeValue.exec], the reconciliation pass
    [run] executed when the persisted state is read back, the wrapper put
    around the resolver-cache tap, the [afterCompile] tap that stores the
    state, and the parser hooks registered by [applyDefine].

    JavaScript values are modelled by the inductive type [CodeValue]; objects
    used as dictionaries are [gmap]s of their own properties, the [Set] of
    invalid module paths is a [gset], a string is a text in UTF-8; mutation
    of shared objects is explicit state passing, and a computation that may
    throw returns a [Completion] together with the state it leaves behind (a
    JavaScript exception does not undo earlier writes).  The module-level
    variables live as long as the process, so what is said of the closures
    of [apply] is said of sequences of events of a process, in which one
    build follows another. *)

From Stdlib Require Import Ascii String.
From stdpp Require Import gmap strings list pretty.

Local Open Scope string_scope.
Local Open Scope list_scope.

Set Warnings "-register-all,-clear-no-such-hyp".

(** ** Completions and stateful computations *)

Inductive JsError :=
| TypeError (message : string)
| Error (message : string).

Inductive Completion (A : Type) :=
| Normal (value : A)
| Throw (error : JsError).

Arguments Normal {A} value.
Arguments Throw {A} error.

(** A computation over a mutable store [S]: it ends normally or throws, and
    in both cases leaves a store. *)
Definition Js (S A : Type) : Type := S -> Completion A * S.

Definition ret {S A} (a : A) : Js S A := fun s => (Normal a, s).

Definition throw {S A} (e : JsError) : Js S A := fun s => (Throw e, s).

Definition bind {S A B} (c : Js S A) (k : A -> Js S B) : Js S B :=
  fun s =>
    match c s with
    | (Normal a, s') => k a s'
    | (Throw e, s') => (Throw e, s')
    end.

Notation "'let!' x ':=' c 'in' k" := (bind c (fun x => k))
  (at level 10, x name, c at level 100, k at level 200).

Section MapJs.
Context {S A B : Type}.
Variable f : A -> Js S B.

(** [Array.prototype.map] with an effectful callback: elements are
    visited from left to right, the first exception aborts the loop. *)
Fixpoint mapJs (l : list A) : Js S (list B) :=
  match l with
  | [] => ret []
  | a :: l' =>
      let! b := f a in
      let! bs := mapJs l' in
      ret (b :: bs)
  end.

(** [Array.prototype.forEach] with an effectful callback. *)
Fixpoint forEachJs (l : list A) : Js S unit :=
  match l with
  | [] => ret tt
  | a :: l' => let! u := f a in forEachJs l'
  end.
End MapJs.

(** ** Modules, parsers and code values *)

Record BuildInfo := {
  cacheable : bool;
  fileDependencies : gset string
}.

Record NormalModule := {
  request : string;
  buildInfo : BuildInfo
}.

Record ParserState := {
  module : NormalModule
}.

(** Of a [JavascriptParser] the plugin reads [parser.state.module] only;
    [state] is [None] for a parser that is not parsing any module. *)
Record JavascriptParser := {
  state : option ParserState
}.

Record RuntimeTemplate := {
  supportsBigIntLiteral : bool
}.

(** The [fileDependencies] field of a [RuntimeValue]: the literal [true] or
    a list of paths. *)
Inductive FileDependencies :=
| DepsTrue
| DepsList (paths : list string).

(** A [CodeValue].  [VNumber n] is a number with the integer value [n],
    at most 2^53 in magnitude (beyond that a number does not have every
    integer value, and its text is not the decimal numeral of its value),
    other than negative zero (which is [VNegZero]); [VRegExp] and
    [VFunction] carry the text their [toString] returns; [VObject] lists
    the own enumerable properties in [Object.keys] order; [VRuntime] is an
    instance of [RuntimeValue] with its two fields. *)
Inductive CodeValue :=
| VNull
| VUndefined
| VNegZero
| VNumber (n : Z)
| VBoolean (b : bool)
| VString (s : string)
| VBigInt (n : Z)
| VRegExp (source : string)
| VFunction (source : string)
| VRuntime (fn : NormalModule -> CodeValue) (deps : FileDependencies)
| VArray (items : list CodeValue)
| VObject (props : list (string * CodeValue)).

(** [new RuntimeValue(fn, fileDependencies)]: a missing or falsy second
    argument ([None]) becomes the empty list. *)
Definition runtimeValue (fn : NormalModule -> CodeValue)
    (fileDependencies : option FileDependencies) : CodeValue :=
  VRuntime fn (default (DepsList []) fileDependencies).

(** The fourth argument of [toCode]: [null], [true], [false], or anything
    else ([undefined]: unknown). *)
Inductive AsiSafe :=
| AsiNull
| AsiTrue
| AsiFalse
| AsiUnknown.

(** ** JSON.stringify on a string *)

Definition dquote : string := String (ascii_of_N 34) EmptyString.

Definition hexDigit (n : N) : ascii :=
  ascii_of_N (if (n <? 10)%N then 48 + n else 87 + n).

Definition jsonEscapeChar (c : ascii) : string :=
  let n := N_of_ascii c in
  if (n =? 34)%N then "\" +:+ dquote
  else if (n =? 92)%N then "\\"
  else if (n =? 8)%N then "\b"
  else if (n =? 9)%N then "\t"
  else if (n =? 10)%N then "\n"
  else if (n =? 12)%N then "\f"
  else if (n =? 13)%N then "\r"
  else if (n <? 32)%N then
    "\u00" +:+ String (hexDigit (n / 16)) (String (hexDigit (n mod 16)) "")
  else String c "".

Fixpoint jsonEscape (s : string) : string :=
  match s with
  | EmptyString => EmptyString
  | String c s' => jsonEscapeChar c +:+ jsonEscape s'
  end.

Definition JSON_stringify (s : string) : string :=
  dquote +:+ jsonEscape s +:+ dquote.

(** ** RuntimeValue.exec *)

Definition setBuildInfo (m : NormalModule) (b : BuildInfo) : NormalModule :=
  {| request := request m; buildInfo := b |}.

(** The writes [exec] makes to [parser.state.module.buildInfo]. *)
Definition markBuildInfo (deps : FileDependencies) (b : BuildInfo) : BuildInfo :=
  match deps with
  | DepsTrue =>
      {| cacheable := false; fileDependencies := fileDependencies b |}
  | DepsList paths =>
      {| cacheable := cacheable b;
         fileDependencies := fileDependencies b ∪ list_to_set paths |}
  end.

(** The first half of [exec]: read [parser.state.module.buildInfo] (a
    [TypeError] when the parser has no state), write to it, and hand the
    module on as the argument of [fn]. *)
Definition execModule (deps : FileDependencies) : Js JavascriptParser NormalModule :=
  fun parser =>
    match state parser with
    | None =>
        (Throw (TypeError "Cannot read property 'module' of undefined"), parser)
    | Some st =>
        let m := setBuildInfo (module st) (markBuildInfo deps (buildInfo (module st))) in
        (Normal m, {| state := Some {| module := m |} |})
    end.

Definition exec (fn : NormalModule -> CodeValue) (deps : FileDependencies)
    : Js JavascriptParser CodeValue :=
  let! m := execModule deps in
  ret (fn m).

(** ** toCode and stringifyObj *)

(** The [switch (asiSafe)] that ends [stringifyObj]. *)
Definition wrapAsi (arr : bool) (asiSafe : AsiSafe) (code : string) : string :=
  match asiSafe with
  | AsiNull => code
  | AsiTrue => if arr then code else "(" +:+ code +:+ ")"
  | AsiFalse => if arr then ";" +:+ code else ";(" +:+ code +:+ ")"
  | AsiUnknown => "Object(" +:+ code +:+ ")"
  end.

Definition join (sep : string) (l : list string) : string := String.concat sep l.

Fixpoint toCode (runtimeTemplate : RuntimeTemplate) (code : CodeValue)
    (asiSafe : AsiSafe) {struct code} : Js JavascriptParser string :=
  match code with
  | VNull => ret "null"
  | VUndefined => ret "undefined"
  | VNegZero => ret "-0"
  | VRuntime fn deps =>
      let! m := execModule deps in
      toCode runtimeTemplate (fn m) asiSafe
  | VRegExp source => ret source
  | VFunction source => ret ("(" +:+ source +:+ ")")
  | VArray items =>
      let! codes := mapJs (fun c => toCode runtimeTemplate c AsiNull) items in
      ret (wrapAsi true asiSafe ("[" +:+ join "," codes +:+ "]"))
  | VObject props =>
      let! codes :=
        mapJs (fun kv =>
                 let! c := toCode runtimeTemplate (snd kv) AsiNull in
                 ret (JSON_stringify (fst kv) +:+ ":" +:+ c)) props in
      ret (wrapAsi false asiSafe ("{" +:+ join "," codes +:+ "}"))
  | VBigInt n =>
      ret (if supportsBigIntLiteral runtimeTemplate
           then pretty n +:+ "n"
           else "BigInt(" +:+ dquote +:+ pretty n +:+ dquote +:+ ")")
  | VNumber n => ret (pretty n)
  | VBoolean b => ret (if b then "true" else "false")
  | VString s => ret s
  end.

(** The argument of [stringifyObj]: an array or any other object. *)
Inductive ObjectValue :=
| IsArray (items : list CodeValue)
| IsObject (props : list (string * CodeValue)).

Definition stringifyObj (runtimeTemplate : RuntimeTemplate) (obj : ObjectValue)
    (asiSafe : AsiSafe) : Js JavascriptParser string :=
  match obj with
  | IsArray items =>
      let! codes := mapJs (fun c => toCode runtimeTemplate c AsiNull) items in
      ret (wrapAsi true asiSafe ("[" +:+ join "," codes +:+ "]"))
  | IsObject props =>
      let! codes :=
        mapJs (fun kv =>
                 let! c := toCode runtimeTemplate (snd kv) AsiNull in
                 ret (JSON_stringify (fst kv) +:+ ":" +:+ c)) props in
      ret (wrapAsi false asiSafe ("{" +:+ join "," codes +:+ "}"))
  end.

(** The serialised elements of an array, resp. the serialised properties of
    an object, each made with [asiSafe = null]. *)
Definition elementCodes (runtimeTemplate : RuntimeTemplate) (obj : ObjectValue)
    : Js JavascriptParser (list string) :=
  match obj with
  | IsArray items => mapJs (fun c => toCode runtimeTemplate c AsiNull) items
  | IsObject props =>
      mapJs (fun kv =>
               let! c := toCode runtimeTemplate (snd kv) AsiNull in
               ret (JSON_stringify (fst kv) +:+ ":" +:+ c)) props
  end.

Definition isArray (obj : ObjectValue) : bool :=
  match obj with
  | IsArray _ => true
  | IsObject _ => false
  end.

Definition literalOf (obj : ObjectValue) (codes : list string) : string :=
  if isArray obj then "[" +:+ join "," codes +:+ "]"
  else "{" +:+ join "," codes +:+ "}".

(** ** The reconciliation pass [run] *)

(** The shape of the module-level [state] object, and of the object
    [JSON.parse] gives back from the text stored for it: the own properties
    of [values] and of [modulesUsingKey]. *)
Record DefineState := {
  values : gmap string string;
  modulesUsingKey : gmap string (list string)
}.

(** The names every object inherits from [Object.prototype].  For such a
    name [key in obj] is true and [obj[key]] is not [undefined] also when
    [obj] has no own property of that name; [compareKey] and
    [recordSubstitution] below are what the code does for the other
    names. *)
Definition inheritedNames : list string :=
  ["constructor"; "hasOwnProperty"; "isPrototypeOf"; "propertyIsEnumerable";
   "toLocaleString"; "toString"; "valueOf"; "__proto__";
   "__defineGetter__"; "__defineSetter__"; "__lookupGetter__"; "__lookupSetter__"].

Definition inheritedName (key : string) : bool :=
  bool_decide (key ∈ inheritedNames).

(** [prefix ? prefix + "." + key : key]; the missing second argument of the
    outermost call and the empty string are both falsy. *)
Definition fullKeyOf (prefix key : string) : string :=
  if decide (prefix = "") then key else prefix +:+ "." +:+ key.

(** [typeof v === "object" && !(v instanceof RuntimeValue) &&
    !(v instanceof RegExp)]: true of [null], too. *)
Definition isNested (v : CodeValue) : bool :=
  match v with
  | VNull | VArray _ | VObject _ => true
  | _ => false
  end.

Section ForEachIndexed.
Context {St A : Type}.
Variable f : nat -> A -> Js St unit.

(** [Object.keys(array).forEach]: the keys are the indices. *)
Fixpoint forEachIndexedJs (i : nat) (l : list A) : Js St unit :=
  match l with
  | [] => ret tt
  | a :: l' => let! u := f i a in forEachIndexedJs (S i) l'
  end.
End ForEachIndexed.

Section Reconcile.
Variable runtimeTemplate : RuntimeTemplate.
(** The parser [new JavascriptParser("auto")] constructs; the class is
    defined in another file, every instance it makes starts in the same
    state. *)
Variable newParser : JavascriptParser.
(** [cache = JSON.parse(rawCacheValue)] *)
Variable cache : DefineState.

(** [toCode(obj[key], new JavascriptParser("auto"), runtimeTemplate, null)];
    the parser is dropped after the call. *)
Definition recompute (code : CodeValue) : Completion string :=
  fst (toCode runtimeTemplate code AsiNull newParser).

(** Lines 219-231: what is done with the recomputed text of a key, for a
    key that is not one of [inheritedNames]. *)
Definition compareKey (fullKey codeStr : string) : Js (gset string) unit :=
  if decide (codeStr = "") then ret tt
  else
    match values cache !! fullKey with
    | Some stored =>
        if decide (stored ≠ "" ∧ codeStr ≠ stored) then
          match modulesUsingKey cache !! fullKey with
          | Some modulePaths =>
              fun invalidModulePaths =>
                (Normal tt, invalidModulePaths ∪ list_to_set modulePaths)
          | None =>
              throw (TypeError "Cannot read property 'forEach' of undefined")
          end
        else ret tt
    | None => ret tt
    end.

Definition runLeaf (fullKey : string) (code : CodeValue) : Js (gset string) unit :=
  match recompute code with
  | Normal codeStr => compareKey fullKey codeStr
  | Throw e => throw e
  end.

(** [run(obj, prefix)].  The store is the set [invalidModulePaths].  The
    function is called on the definitions and on values for which
    [isNested] holds only. *)
Fixpoint run (obj : CodeValue) (prefix : string) {struct obj}
    : Js (gset string) unit :=
  let visit (key : string) (v : CodeValue) : Js (gset string) unit :=
    if isNested v then run v (fullKeyOf prefix key)
    else runLeaf (fullKeyOf prefix key) v in
  match obj with
  | VNull => throw (TypeError "Cannot convert undefined or null to object")
  | VArray items => forEachIndexedJs (fun i v => visit (pretty i) v) 0 items
  | VObject props => forEachJs (fun kv => visit (fst kv) (snd kv)) props
  | _ => ret tt
  end.

(** [run(definitions)] *)
Definition runDefinitions (definitions : list (string * CodeValue))
    : Js (gset string) unit :=
  run (VObject definitions) "".

(** What [run] meets, in order: the leaves with their full keys, and the
    places where it is handed [null]. *)
Inductive Visit :=
| VisitLeaf (fullKey : string) (code : CodeValue)
| VisitNull.

Fixpoint visits (obj : CodeValue) (prefix : string) {struct obj} : list Visit :=
  let visit (key : string) (v : CodeValue) : list Visit :=
    if isNested v then visits v (fullKeyOf prefix key)
    else [VisitLeaf (fullKeyOf prefix key) v] in
  match obj with
  | VNull => [VisitNull]
  | VArray items =>
      (fix each (i : nat) (l : list CodeValue) : list Visit :=
         match l with
         | [] => []
         | v :: l' => visit (pretty i) v ++ each (S i) l'
         end) 0 items
  | VObject props => flat_map (fun kv => visit (fst kv) (snd kv)) props
  | _ => []
  end.

Definition visitStep (v : Visit) : Js (gset string) unit :=
  match v with
  | VisitLeaf fullKey code => runLeaf fullKey code
  | VisitNull => throw (TypeError "Cannot convert undefined or null to object")
  end.

(** The leaves of a definitions object with their full keys. *)
Definition leaves (definitions : list (string * CodeValue))
    : list (string * CodeValue) :=
  flat_map (fun v => match v with
                     | VisitLeaf k c => [(k, c)]
                     | VisitNull => []
                     end) (visits (VObject definitions) "").

(** The test of lines 219-227 on a recomputed text: it is not empty, a
    text is stored for the key, that text is not empty, and the two
    differ. *)
Definition textChanged (fullKey codeStr : string) : Prop :=
  codeStr ≠ "" ∧
  ∃ stored, values cache !! fullKey = Some stored ∧ stored ≠ "" ∧ codeStr ≠ stored.

Definition keyChanged (fullKey : string) (code : CodeValue) : Prop :=
  ∃ codeStr, recompute code = Normal codeStr ∧ textChanged fullKey codeStr.
End Reconcile.

(** ** Module-level variables and the closure of [apply] *)

(** The module-level bindings [state], [didAfterCompileHookRun],
    [didCodeGeneration], [invalidModulePaths] and [cacheEmpty]. *)
Record Globals := {
  runState : DefineState;
  didAfterCompileHookRun : bool;
  didCodeGeneration : bool;
  invalidModulePaths : gset string;
  cacheEmpty : bool
}.

Definition initialGlobals : Globals :=
  {| runState := {| values := ∅; modulesUsingKey := ∅ |};
     didAfterCompileHookRun := false;
     didCodeGeneration := false;
     invalidModulePaths := ∅;
     cacheEmpty := false |}.

(** The request object handed to the resolver-cache tap:
    [request.context.issuer] ([None] when there is no string to read there),
    [request.request] and the flag [request._forceRealResolve]. *)
Record Request := {
  issuer : option string;
  requestString : string;
  _forceRealResolve : bool
}.

(** The three arguments of one call of the tap; [resolveContext] and
    [callback] are only passed on. *)
Record ResolveCall := {
  resolveRequest : Request;
  resolveContext : nat;
  callback : nat
}.

Inductive Promise :=
| Pending
| Fulfilled
| Rejected (reason : JsError).

(** What the closures made by [apply] share: the module-level variables,
    [reconcilePromise] with the reactions attached to it while it is
    pending, the calls made so far to [originalTapFn] and to
    [definePluginCache.store] (oldest first), and the reasons of the
    rejections that had no handler.  What the host does with such a
    rejection is its own matter (Node.js, from version 15 on, ends the
    process with the reason unless it is told otherwise); what the model
    gives after one is what a process that goes on does. *)
Record Compiler := {
  globals : Globals;
  reconcilePromise : Promise;
  reactions : list ResolveCall;
  originalTapFnCalls : list ResolveCall;
  storeCalls : list DefineState;
  unhandledRejections : list JsError
}.

Definition initialCompiler : Compiler :=
  {| globals := initialGlobals;
     reconcilePromise := Pending;
     reactions := [];
     originalTapFnCalls := [];
     storeCalls := [];
     unhandledRejections := [] |}.

Definition setInvalidModulePaths (paths : gset string) (g : Globals) : Globals :=
  {| runState := runState g;
     didAfterCompileHookRun := didAfterCompileHookRun g;
     didCodeGeneration := didCodeGeneration g;
     invalidModulePaths := paths;
     cacheEmpty := cacheEmpty g |}.

Definition setCacheEmpty (b : bool) (g : Globals) : Globals :=
  {| runState := runState g;
     didAfterCompileHookRun := didAfterCompileHookRun g;
     didCodeGeneration := didCodeGeneration g;
     invalidModulePaths := invalidModulePaths g;
     cacheEmpty := b |}.

Definition setDidAfterCompileHookRun (b : bool) (g : Globals) : Globals :=
  {| runState := runState g;
     didAfterCompileHookRun := b;
     didCodeGeneration := didCodeGeneration g;
     invalidModulePaths := invalidModulePaths g;
     cacheEmpty := cacheEmpty g |}.

Definition setGlobals (g : Globals) (c : Compiler) : Compiler :=
  {| globals := g;
     reconcilePromise := reconcilePromise c;
     reactions := reactions c;
     originalTapFnCalls := originalTapFnCalls c;
     storeCalls := storeCalls c;
     unhandledRejections := unhandledRejections c |}.

(** [originalTapFn(request, resolveContext, callback)]: the call is made;
    what the tap of the resolver cache does with it is its own matter. *)
Definition originalTapFn (call : ResolveCall) (c : Compiler) : Compiler :=
  {| globals := globals c;
     reconcilePromise := reconcilePromise c;
     reactions := reactions c;
     originalTapFnCalls := originalTapFnCalls c ++ [call];
     storeCalls := storeCalls c;
     unhandledRejections := unhandledRejections c |}.

(** [request._forceRealResolve = true] *)
Definition forceRealResolve (call : ResolveCall) : ResolveCall :=
  {| resolveRequest :=
       {| issuer := issuer (resolveRequest call);
          requestString := requestString (resolveRequest call);
          _forceRealResolve := true |};
     resolveContext := resolveContext call;
     callback := callback call |}.

(** The writes of [hookCallback] once its callback has returned a text and
    a result, for a key that is not one of [inheritedNames]. *)
Definition recordSubstitution (key strCode moduleRequest : string) (g : Globals)
    : Globals :=
  {| runState :=
       {| values := <[key := strCode]> (values (runState g));
          modulesUsingKey :=
            <[key := default [] (modulesUsingKey (runState g) !! key)
                       ++ [moduleRequest]]>
              (modulesUsingKey (runState g)) |};
     didAfterCompileHookRun := didAfterCompileHookRun g;
     didCodeGeneration := true;
     invalidModulePaths := invalidModulePaths g;
     cacheEmpty := cacheEmpty g |}.

Section Apply.
Variable runtimeTemplate : RuntimeTemplate.
Variable newParser : JavascriptParser.
Variable definitions : list (string * CodeValue).
(** [path.dirname] and [path.resolve] of Node.js *)
Variable path_dirname : string -> string.
Variable path_resolve : string -> string -> string.

(** [path.resolve(path.dirname(request.context.issuer), request.request)];
    [path.dirname] throws when its argument is not a string. *)
Definition modulePathOf (request : Request) : Completion string :=
  match issuer request with
  | Some file => Normal (path_resolve (path_dirname file) (requestString request))
  | None => Throw (TypeError "The path argument must be of type string")
  end.

(** The function passed to [reconcilePromise.then]. *)
Definition onReconciled (call : ResolveCall) : Js Compiler unit :=
  fun c =>
    if cacheEmpty (globals c) then (Normal tt, originalTapFn call c)
    else
      match modulePathOf (resolveRequest call) with
      | Throw e => (Throw e, c)
      | Normal modulePath =>
          if decide (modulePath ∈ invalidModulePaths (globals c)) then
            (Normal tt,
             originalTapFn (forceRealResolve call)
               (setGlobals
                  (setInvalidModulePaths
                     (invalidModulePaths (globals c) ∖ {[modulePath]}) (globals c))
                  c))
          else (Normal tt, originalTapFn call c)
      end.

(** The function passed to [.catch]. *)
Definition onReconcileFailed (call : ResolveCall) (c : Compiler) : Compiler :=
  originalTapFn call c.

(** [reconcilePromise.then(...).catch(...)] for one lookup, once the promise
    is settled with [outcome]: the handler of [catch] runs when the promise
    is rejected, and also when the handler of [then] throws. *)
Definition react (outcome : Promise) (call : ResolveCall) (c : Compiler) : Compiler :=
  match outcome with
  | Rejected _ => onReconcileFailed call c
  | _ =>
      match onReconciled call c with
      | (Normal _, c') => c'
      | (Throw _, c') => onReconcileFailed call c'
      end
  end.

(** Settling the promise runs the reactions attached to it, in the order
    they were attached; a rejection of a promise nothing is attached to has
    no handler; a settled promise stays as it is. *)
Definition settle (outcome : Promise) (c : Compiler) : Compiler :=
  match reconcilePromise c with
  | Pending =>
      foldl (fun c call => react outcome call c)
        {| globals := globals c;
           reconcilePromise := outcome;
           reactions := [];
           originalTapFnCalls := originalTapFnCalls c;
           storeCalls := storeCalls c;
           unhandledRejections :=
             match outcome, reactions c with
             | Rejected reason, [] => unhandledRejections c ++ [reason]
             | _, _ => unhandledRejections c
             end |}
        (reactions c)
  | _ => c
  end.

Definition resolveReconcile : Compiler -> Compiler := settle Fulfilled.

Definition rejectReconcile (err : JsError) : Compiler -> Compiler :=
  settle (Rejected err).

(** The callback given to [definePluginCache.get]: [err] is the read
    error if there is one, [rawCacheValue] the stored state ([None] when
    nothing is stored; the text and [JSON.parse] are left implicit). *)
Definition onCacheRead (err : option JsError) (rawCacheValue : option DefineState)
    : Js Compiler unit :=
  fun c =>
    match err with
    | Some e => (Normal tt, rejectReconcile e c)
    | None =>
        match rawCacheValue with
        | None =>
            (Normal tt,
             resolveReconcile (setGlobals (setCacheEmpty true (globals c)) c))
        | Some cache =>
            match runDefinitions runtimeTemplate newParser cache definitions
                    (invalidModulePaths (globals c)) with
            | (Normal _, paths) =>
                (Normal tt,
                 resolveReconcile
                   (setGlobals (setInvalidModulePaths paths (globals c)) c))
            | (Throw e, paths) =>
                (Throw e,
                 setGlobals (setInvalidModulePaths paths (globals c)) c)
            end
        end
    end.

(** The function put in place of [tapInfo.fn]: the two handlers are
    attached to the promise, and run at once when it is settled already. *)
Definition tapFn (call : ResolveCall) (c : Compiler) : Compiler :=
  match reconcilePromise c with
  | Pending =>
      {| globals := globals c;
         reconcilePromise := Pending;
         reactions := reactions c ++ [call];
         originalTapFnCalls := originalTapFnCalls c;
         storeCalls := storeCalls c;
         unhandledRejections := unhandledRejections c |}
  | outcome => react outcome call c
  end.

(** The [afterCompile] tap. *)
Definition afterCompile (c : Compiler) : Compiler :=
  if didAfterCompileHookRun (globals c) then c
  else if negb (didCodeGeneration (globals c)) then c
  else
    {| globals := setDidAfterCompileHookRun true (globals c);
       reconcilePromise := reconcilePromise c;
       reactions := reactions c;
       originalTapFnCalls := originalTapFnCalls c;
       storeCalls := storeCalls c ++ [runState (globals c)];
       unhandledRejections := unhandledRejections c |}.

(** What happens in the process, as far as these closures see it; each
    event is a turn of its own.  The module-level variables live as long as
    the process: the events of a second build follow those of the first. *)
Inductive BuildEvent :=
| CacheRead (err : option JsError) (rawCacheValue : option DefineState)
| Resolve (call : ResolveCall)
| Substitution (key strCode moduleRequest : string)
| AfterCompile.

Definition step (c : Compiler) (ev : BuildEvent) : Compiler :=
  match ev with
  | CacheRead err raw => snd (onCacheRead err raw c)
  | Resolve call => tapFn call c
  | Substitution key strCode moduleRequest =>
      setGlobals (recordSubstitution key strCode moduleRequest (globals c)) c
  | AfterCompile => afterCompile c
  end.

Definition runBuild (events : list BuildEvent) : Compiler :=
  foldl step initialCompiler events.

(** The module path of a lookup; [None] when computing it throws. *)
Definition lookupPath (call : ResolveCall) : option string :=
  match modulePathOf (resolveRequest call) with
  | Normal modulePath => Some modulePath
  | Throw _ => None
  end.
End Apply.

(** ** Notions used to state what a build stores *)

(** What the [afterCompile] tap reads and writes. *)
Definition storeView (c : Compiler) : bool * bool * DefineState * list DefineState :=
  (didAfterCompileHookRun (globals c), didCodeGeneration (globals c),
   runState (globals c), storeCalls c).

Definition hasSubstitution (events : list BuildEvent) : Prop :=
  ∃ k s m, Substitution k s m ∈ events.

(** [AfterCompile] comes in [events] after a substitution; [pre] is what
    comes before it. *)
Definition storesAfter (pre events : list BuildEvent) : Prop :=
  ∃ post, events = pre ++ AfterCompile :: post ∧ hasSubstitution pre.

(** ** The parser hooks registered by [applyDefine] *)

(** Of an expression node the taps read [expr.range]. *)
Record Expression := {
  range : nat * nat
}.

(** Of a [BasicEvaluatedExpression] the taps read [isString()] and
    [string] ([evaluatedString] is [Some s] when the expression is known to
    be the string [s]) and write the range. *)
Record BasicEvaluatedExpression := {
  evaluatedString : option string;
  evaluatedRange : option (nat * nat)
}.

Definition setRange (r : nat * nat) (res : BasicEvaluatedExpression)
    : BasicEvaluatedExpression :=
  {| evaluatedString := evaluatedString res; evaluatedRange := Some r |}.

(** What [parser.evaluate(source)] does, as seen from the taps: it ends with
    a result, throws, or calls the [evaluateIdentifier] or [evaluateTypeof]
    hook of a name and goes on with what the hook returned or threw. *)
Inductive Evaluation :=
| Evaluated (res : BasicEvaluatedExpression)
| EvaluateThrows (e : JsError)
| CallEvaluateIdentifier (name : string) (expr : Expression)
    (k : Completion (option BasicEvaluatedExpression) -> Evaluation)
| CallEvaluateTypeof (name : string) (expr : Expression)
    (k : Completion (option BasicEvaluatedExpression) -> Evaluation).

(** What the closures made by [handler(parser)] share.  [recurse] and
    [recurseTypeof] hold, for each call of [applyDefine] (numbered in call
    order), whether its variable of that name is [true].  The taps added by
    [applyObjectDefine] neither call [parser.evaluate] nor read these
    variables; they are not part of the model. *)
Record Handler := {
  handlerGlobals : Globals;
  parser : JavascriptParser;
  recurse : gset nat;
  recurseTypeof : gset nat;
  constDependencies : list (string * (nat * nat))
}.

(** A computation of the taps.  [None] stands for a nesting of
    [parser.evaluate] calls deeper than the depth allowed to the model. *)
Definition Hook (A : Type) : Type := Handler -> option (Completion A * Handler).

Definition hret {A} (a : A) : Hook A := fun h => Some (Normal a, h).

Definition hthrow {A} (e : JsError) : Hook A := fun h => Some (Throw e, h).

Definition hbind {A B} (c : Hook A) (k : A -> Hook B) : Hook B :=
  fun h =>
    match c h with
    | Some (Normal a, h') => k a h'
    | Some (Throw e, h') => Some (Throw e, h')
    | None => None
    end.

Notation "'let?' x ':=' c 'in' k" := (hbind c (fun x => k))
  (at level 10, x name, c at level 100, k at level 200).

Definition setHandlerGlobals (g : Globals) (h : Handler) : Handler :=
  {| handlerGlobals := g;
     parser := parser h;
     recurse := recurse h;
     recurseTypeof := recurseTypeof h;
     constDependencies := constDependencies h |}.

Definition setRecurse (flags : gset nat) (h : Handler) : Handler :=
  {| handlerGlobals := handlerGlobals h;
     parser := parser h;
     recurse := flags;
     recurseTypeof := recurseTypeof h;
     constDependencies := constDependencies h |}.

Definition setRecurseTypeof (flags : gset nat) (h : Handler) : Handler :=
  {| handlerGlobals := handlerGlobals h;
     parser := parser h;
     recurse := recurse h;
     recurseTypeof := flags;
     constDependencies := constDependencies h |}.

(** A computation that works on [parser] only. *)
Definition withParser {A} (c : Js JavascriptParser A) : Hook A :=
  fun h =>
    let '(r, p) := c (parser h) in
    Some (r, {| handlerGlobals := handlerGlobals h;
                parser := p;
                recurse := recurse h;
                recurseTypeof := recurseTypeof h;
                constDependencies := constDependencies h |}).

(** [toConstantDependency(parser, code)(expr)]: a constant dependency for
    the range of [expr] is added to the module, the call returns [true]. *)
Definition toConstantDependency (code : string) (expr : Expression) : Hook unit :=
  fun h =>
    Some (Normal tt,
          {| handlerGlobals := handlerGlobals h;
             parser := parser h;
             recurse := recurse h;
             recurseTypeof := recurseTypeof h;
             constDependencies := constDependencies h ++ [(code, range expr)] |}).

(** A string is a text in UTF-8.  The encoding of a code point below
    0x10000: *)
Definition utf8 (n : N) : string :=
  if (n <? 128)%N then String (ascii_of_N n) EmptyString
  else if (n <? 2048)%N then
    String (ascii_of_N (192 + n / 64))
      (String (ascii_of_N (128 + n mod 64)) EmptyString)
  else
    String (ascii_of_N (224 + n / 4096))
      (String (ascii_of_N (128 + (n / 64) mod 64))
         (String (ascii_of_N (128 + n mod 64)) EmptyString)).

(** The code points [\s] matches: the white space and the line
    terminators of ECMAScript (U+0009 to U+000D, U+0020, U+00A0, U+1680,
    U+2000 to U+200A, U+2028, U+2029, U+202F, U+205F, U+3000, U+FEFF). *)
Definition whiteSpaceCodePoints : list N :=
  [9; 10; 11; 12; 13; 32; 160; 5760;
   8192; 8193; 8194; 8195; 8196; 8197; 8198; 8199; 8200; 8201; 8202;
   8232; 8233; 8239; 8287; 12288; 65279]%N.

Definition whiteSpaceChars : list string := map utf8 whiteSpaceCodePoints.

Fixpoint stripPrefix (p s : string) : option string :=
  match p, s with
  | EmptyString, _ => Some s
  | String a p', String b s' => if decide (a = b) then stripPrefix p' s' else None
  | String _ _, EmptyString => None
  end.

(** What follows the character matched by [\s] that [s] starts with. *)
Definition stripWhiteSpace (s : string) : option string :=
  head (omap (fun w => stripPrefix w s) whiteSpaceChars).

Fixpoint dropWhiteSpaceWithin (n : nat) (s : string) : string :=
  match n with
  | 0 => s
  | S n' =>
      match stripWhiteSpace s with
      | Some rest => dropWhiteSpaceWithin n' rest
      | None => s
      end
  end.

(** [s] without the characters matched by [\s] it starts with; there are
    no more of them than [s] has bytes. *)
Definition dropWhiteSpace (s : string) : string :=
  dropWhiteSpaceWithin (String.length s) s.

(** [Some rest] when [/^typeof\s+/] matches [key]; [rest] is then
    [key.replace(/^typeof\s+/, "")]. *)
Definition afterTypeof (key : string) : option string :=
  match stripPrefix "typeof" key with
  | Some tail =>
      match stripWhiteSpace tail with
      | Some rest => Some (dropWhiteSpace rest)
      | None => None
      end
  | None => None
  end.

(** [code && typeof code === "object" && !(code instanceof RuntimeValue) &&
    !(code instanceof RegExp)] *)
Definition isNestedDefinition (v : CodeValue) : bool :=
  match v with
  | VArray _ | VObject _ => true
  | _ => false
  end.

(** The calls [applyDefine(key, code)] that [walkDefinitions(obj, prefix)]
    makes, in order. *)
Fixpoint walkDefinitions (obj : CodeValue) (prefix : string) {struct obj}
    : list (string * CodeValue) :=
  let visit (key : string) (code : CodeValue) : list (string * CodeValue) :=
    if isNestedDefinition code then walkDefinitions code (prefix +:+ key +:+ ".")
    else [(prefix +:+ key, code)] in
  match obj with
  | VArray items =>
      (fix each (i : nat) (l : list CodeValue) : list (string * CodeValue) :=
         match l with
         | [] => []
         | v :: l' => visit (pretty i) v ++ each (S i) l'
         end) 0 items
  | VObject props => flat_map (fun kv => visit (fst kv) (snd kv)) props
  | _ => []
  end.

Inductive HookKind :=
| EvaluateIdentifier
| EvaluateTypeof.

Section Handler.
Variable runtimeTemplate : RuntimeTemplate.
(** [parser.evaluate], given the source text. *)
Variable parse : string -> Evaluation.

(** [hookCallback(key, callback)], applied to [expr] and to the module
    the parser passes along ([None]: no second argument). *)
Definition hookCallback {R} (key : string)
    (callback : Expression -> Hook (option (string * R)))
    (expr : Expression) (module : option NormalModule) : Hook (option R) :=
  let? r := callback expr in
  match r with
  | None => hret None
  | Some (strCode, result) =>
      fun h =>
        let g := handlerGlobals h in
        let g1 :=
          {| runState :=
               {| values := <[key := strCode]> (values (runState g));
                  modulesUsingKey := modulesUsingKey (runState g) |};
             didAfterCompileHookRun := didAfterCompileHookRun g;
             didCodeGeneration := true;
             invalidModulePaths := invalidModulePaths g;
             cacheEmpty := cacheEmpty g |} in
        match module with
        | None =>
            Some (Throw (TypeError "Cannot read property 'request' of undefined"),
                  setHandlerGlobals g1 h)
        | Some m =>
            Some (Normal (Some result),
                  setHandlerGlobals (recordSubstitution key strCode (request m) g) h)
        end
  end.

Section Taps.
(** [parser.evaluate], as the taps of this nesting depth reach it. *)
Variable evaluate : string -> Hook BasicEvaluatedExpression.
(** The number of the [applyDefine] call, and its two arguments. *)
Variable i : nat.
Variable key : string.
Variable code : CodeValue.

Definition isTypeof : bool := bool_decide (is_Some (afterTypeof key)).

(** [key] after [if (isTypeof) key = key.replace(/^typeof\s+/, "")] *)
Definition hookKey : string := default key (afterTypeof key).

Definition evaluateIdentifierCallback (expr : Expression)
    : Hook (option (string * BasicEvaluatedExpression)) :=
  fun h =>
    if decide (i ∈ recurse h) then Some (Normal None, h)
    else
      (let? strCode := withParser (toCode runtimeTemplate code AsiNull) in
       let? res := evaluate strCode in
       fun h' =>
         Some (Normal (Some (strCode, setRange (range expr) res)),
               setRecurse (recurse h' ∖ {[i]}) h'))
        (setRecurse ({[i]} ∪ recurse h) h).

Definition typeofCodeOf (strCode : string) : string :=
  if isTypeof then strCode else "typeof (" +:+ strCode +:+ ")".

Definition evaluateTypeofCallback (expr : Expression)
    : Hook (option (string * BasicEvaluatedExpression)) :=
  fun h =>
    if decide (i ∈ recurseTypeof h) then Some (Normal None, h)
    else
      (let? strCode := withParser (toCode runtimeTemplate code AsiNull) in
       let? res := evaluate (typeofCodeOf strCode) in
       fun h' =>
         Some (Normal (Some (strCode, setRange (range expr) res)),
               setRecurseTypeof (recurseTypeof h' ∖ {[i]}) h'))
        (setRecurseTypeof ({[i]} ∪ recurseTypeof h) h).

Definition typeofCallback (expr : Expression) : Hook (option (string * unit)) :=
  let? strCode := withParser (toCode runtimeTemplate code AsiNull) in
  let? res := evaluate (typeofCodeOf strCode) in
  match evaluatedString res with
  | None => hret None
  | Some s =>
      let? u := toConstantDependency (JSON_stringify s) expr in
      hret (Some (strCode, tt))
  end.

(** The taps on [parser.hooks.evaluateIdentifier.for(key)],
    [parser.hooks.evaluateTypeof.for(key)] and
    [parser.hooks.typeof.for(key)]. *)
Definition evaluateIdentifierTap := hookCallback hookKey evaluateIdentifierCallback.
Definition evaluateTypeofTap := hookCallback hookKey evaluateTypeofCallback.
Definition typeofTap := hookCallback hookKey typeofCallback.
End Taps.

(** [defines]: the calls of [applyDefine], in order. *)
Variable defines : list (string * CodeValue).

(** The taps of one hook of the name [name], in the order they were
    added, each with the number of the [applyDefine] call that added it. *)
Definition isTapped (kind : HookKind) (name key : string) : bool :=
  bool_decide (hookKey key = name) &&
  match kind with
  | EvaluateIdentifier => negb (isTypeof key)
  | EvaluateTypeof => true
  end.

Definition tapsFor (kind : HookKind) (name : string)
    : list (nat * (string * CodeValue)) :=
  List.filter (fun d => isTapped kind name (fst (snd d)))
              (imap (fun i d => (i, d)) defines).

Section Hooks.
Variable evaluate : string -> Hook BasicEvaluatedExpression.

Definition tapOf (kind : HookKind) (d : nat * (string * CodeValue)) :=
  match kind with
  | EvaluateIdentifier => evaluateIdentifierTap evaluate (fst d) (fst (snd d)) (snd (snd d))
  | EvaluateTypeof => evaluateTypeofTap evaluate (fst d) (fst (snd d)) (snd (snd d))
  end.

(** Calling a bail hook: the taps are called in order until one returns
    something other than [undefined]. *)
Fixpoint callTaps (kind : HookKind) (taps : list (nat * (string * CodeValue)))
    (expr : Expression) : Hook (option BasicEvaluatedExpression) :=
  match taps with
  | [] => hret None
  | d :: rest =>
      let? r := (fun h => tapOf kind d expr (module <$> state (parser h)) h) in
      match r with
      | Some res => hret (Some res)
      | None => callTaps kind rest expr
      end
  end.

Definition callHook (kind : HookKind) (name : string) (expr : Expression)
    : Hook (option BasicEvaluatedExpression) :=
  callTaps kind (tapsFor kind name) expr.

(** Running an evaluation; a hook that throws hands its error to the
    evaluation, the state it left stays. *)
Fixpoint interpret (t : Evaluation) : Hook BasicEvaluatedExpression :=
  match t with
  | Evaluated res => hret res
  | EvaluateThrows e => hthrow e
  | CallEvaluateIdentifier name expr k =>
      fun h =>
        match callHook EvaluateIdentifier name expr h with
        | Some (r, h') => interpret (k r) h'
        | None => None
        end
  | CallEvaluateTypeof name expr k =>
      fun h =>
        match callHook EvaluateTypeof name expr h with
        | Some (r, h') => interpret (k r) h'
        | None => None
        end
  end.
End Hooks.

(** [parser.evaluate] with at most [depth] calls of it nested in one
    another. *)
Fixpoint evaluate (depth : nat) (source : string) : Hook BasicEvaluatedExpression :=
  match depth with
  | 0 => fun _ => None
  | S depth' => interpret (evaluate depth') (parse source)
  end.

(** The parser meets an identifier, resp. [typeof] of one, in a module. *)
Definition fireEvaluateIdentifier (depth : nat) (name : string) (expr : Expression)
    : Hook (option BasicEvaluatedExpression) :=
  callHook (evaluate depth) EvaluateIdentifier name expr.

Definition fireEvaluateTypeof (depth : nat) (name : string) (expr : Expression)
    : Hook (option BasicEvaluatedExpression) :=
  callHook (evaluate depth) EvaluateTypeof name expr.

(** The number of [recurse] and [recurseTypeof] variables that are
    [false]. *)
Definition clearFlags (h : Handler) : nat :=
  size (set_seq 0 (length defines) ∖ recurse h) +
  size (set_seq 0 (length defines) ∖ recurseTypeof h).
End Handler.

(** ** Sample values *)

Definition sampleTemplate : RuntimeTemplate := {| supportsBigIntLiteral := true |}.

(** A parser that is not parsing any module. *)
Definition idleParser : JavascriptParser := {| state := None |}.

Definition sampleModule : NormalModule :=
  {| request := "/src/index.js";
     buildInfo := {| cacheable := true; fileDependencies := ∅ |} |}.

Definition parserOf (m : NormalModule) : JavascriptParser :=
  {| state := Some {| module := m |} |}.

(** [{ VERSION: "2", FLAGS: { debug: false } }], with [VERSION] stored as
    ["1"] by the build before. *)
Definition sampleDefinitions : list (string * CodeValue) :=
  [("VERSION", VString "2"); ("FLAGS", VObject [("debug", VBoolean false)])].

Definition sampleCache : DefineState :=
  {| values := {[ "VERSION" := "1"; "FLAGS.debug" := "false" ]};
     modulesUsingKey :=
       {[ "VERSION" := ["/src/index.js"; "/src/about.js"];
          "FLAGS.debug" := ["/src/log.js"] ]} |}.

(** Two definitions: [typeof A] is the string literal [x] in double quotes,
    [A] is the number 1. *)
Definition typeofDefinitions : list (string * CodeValue) :=
  [("typeof A", VString (dquote +:+ "x" +:+ dquote)); ("A", VNumber 1)].

Definition sampleCall (path : string) (n : nat) : ResolveCall :=
  {| resolveRequest :=
       {| issuer := Some "/src/index.js"; requestString := path;
          _forceRealResolve := false |};
     resolveContext := n;
     callback := n |}.

(** [a: "b", b: "a"], a parser that is parsing [sampleModule], and an
    evaluation that asks the hook of an identifier it meets and, without an
    answer, knows nothing about the expression. *)
Definition unknownExpression : BasicEvaluatedExpression :=
  {| evaluatedString := None; evaluatedRange := None |}.

Definition sampleExpression : Expression := {| range := (0, 1) |}.

Definition answerOr (r : Completion (option BasicEvaluatedExpression))
    : Evaluation :=
  match r with
  | Normal (Some res) => Evaluated res
  | Normal None => Evaluated unknownExpression
  | Throw e => EvaluateThrows e
  end.

Definition sampleParse (source : string) : Evaluation :=
  if decide (source = "a") then CallEvaluateIdentifier "a" sampleExpression answerOr
  else if decide (source = "b") then CallEvaluateIdentifier "b" sampleExpression answerOr
  else if decide (source = "typeof (a)") then CallEvaluateTypeof "a" sampleExpression answerOr
  else if decide (source = "typeof (b)") then CallEvaluateTypeof "b" sampleExpression answerOr
  else Evaluated unknownExpression.

Definition mutualDefinitions : list (string * CodeValue) :=
  [("a", VString "b"); ("b", VString "a")].

(** [a: "b", b: "c"] *)
Definition chainDefinitions : list (string * CodeValue) :=
  [("a", VString "b"); ("b", VString "c")].

Definition sampleHandler : Handler :=
  {| handlerGlobals := initialGlobals;
     parser := parserOf sampleModule;
     recurse := ∅;
     recurseTypeof := ∅;
     constDependencies := [] |}.

(** ** Notions used to state that the taps return *)

(** No [recurse] or [recurseTypeof] variable that was [true] in [h] is
    [false] in [h']. *)
Definition flagsKept (h h' : Handler) : Prop :=
  recurse h ⊆ recurse h' ∧ recurseTypeof h ⊆ recurseTypeof h'.

(** The computation [c], started in [h], comes to an end within the depth
    allowed to it. *)
Definition settles {A} (c : Hook A) (h : Handler) : Prop :=
  ∃ r h', c h = Some (r, h') ∧ flagsKept h h'.


(** ** Values without [null], values without runtime values *)

(** No [null] in [v], at any depth of arrays and objects. *)
Fixpoint nullFree (v : CodeValue) : bool :=
  match v with
  | VNull => false
  | VArray items => forallb nullFree items
  | VObject props => forallb (fun kv => nullFree (snd kv)) props
  | _ => true
  end.

(** No instance of [RuntimeValue] in [v], at any depth of arrays and
    objects. *)
Fixpoint runtimeFree (v : CodeValue) : bool :=
  match v with
  | VRuntime _ _ => false
  | VArray items => forallb runtimeFree items
  | VObject props => forallb (fun kv => runtimeFree (snd kv)) props
  | _ => true
  end.

(** What [run] meets in a property or an element [v] reached under the
    key [k]. *)
Definition metIn (x : Visit) (k : string) (v : CodeValue) : Prop :=
  (isNested v = true ∧ x ∈ visits v k) ∨ (isNested v = false ∧ x = VisitLeaf k v).

(** ** applyDefineKey *)

(** [s.split(sep)] for a separator of one character. *)
Fixpoint split (sep : ascii) (s : string) : list string :=
  match s with
  | EmptyString => [EmptyString]
  | String c s' =>
      if decide (c = sep) then EmptyString :: split sep s'
      else
        match split sep s' with
        | segment :: segments => String c segment :: segments
        | [] => [String c EmptyString]
        end
  end.

(** The names for which [applyDefineKey(prefix, key)] taps
    [parser.hooks.canRename], in order. *)
Definition applyDefineKey (prefix key : string) : list string :=
  let splittedKey := split "." key in
  imap (fun i _ => prefix +:+ join "." (take (i + 1) splittedKey))
       (drop 1 splittedKey).

(** ** The lookups of a build *)

(** The calls of the resolver-cache tap among [events], in order. *)
Definition lookupsOf (events : list BuildEvent) : list ResolveCall :=
  flat_map (fun ev => match ev with
                      | Resolve call => [call]
                      | _ => []
                      end) events.

(** The texts and module requests recorded for [key] among [events], in
    order. *)
Definition substitutionsOf (key : string) (events : list BuildEvent)
    : list (string * string) :=
  flat_map (fun ev => match ev with
                      | Substitution k strCode moduleRequest =>
                          if decide (k = key) then [(strCode, moduleRequest)] else []
                      | _ => []
                      end) events.

(** ** hookCallback with the in-memory cache *)

(** The variant of [apply] that keeps a [Map] from keys to texts and
    invalidates the build of a module that uses a key whose text has
    changed: the map, and the requests of the modules on which
    [invalidateBuild] was called (oldest first). *)
Record MapCache := {
  cacheItems : gmap string string;
  invalidatedBuilds : list string
}.

(** [hookCallback(key, callback)] of that variant, applied to [expr] and
    [module]. *)
Definition hookCallbackMap {R} (key : string)
    (callback : Expression -> Js MapCache (option (string * R)))
    (expr : Expression) (module : NormalModule) : Js MapCache (option R) :=
  fun st =>
    let cacheItem := cacheItems st !! key in
    match callback expr st with
    | (Throw e, st') => (Throw e, st')
    | (Normal None, st') => (Normal None, st')
    | (Normal (Some (codeStr, result)), st') =>
        match cacheItem with
        | Some item =>
            if decide (item = "") then
              (Normal (Some result),
               {| cacheItems := <[key := codeStr]> (cacheItems st');
                  invalidatedBuilds := invalidatedBuilds st' |})
            else if decide (item ≠ codeStr) then
              (Normal (Some result),
               {| cacheItems := <[key := codeStr]> (delete key (cacheItems st'));
                  invalidatedBuilds := invalidatedBuilds st' ++ [request module] |})
            else (Normal (Some result), st')
        | None =>
            (Normal (Some result),
             {| cacheItems := <[key := codeStr]> (cacheItems st');
                invalidatedBuilds := invalidatedBuilds st' |})
        end
    end.

(** ** Notions used to state what serialising does to a module *)

(** From [m] to [m']: the same request, no file dependency lost, and not
    cacheable again once it was not. *)
Definition buildInfoGrows (m m' : NormalModule) : Prop :=
  request m' = request m ∧
  fileDependencies (buildInfo m) ⊆ fileDependencies (buildInfo m') ∧
  (cacheable (buildInfo m) = false → cacheable (buildInfo m') = false).

(** The leaves among what [run] meets, with their full keys. *)
Definition leafPairs (vs : list Visit) : list (string * CodeValue) :=
  flat_map (fun v => match v with
                     | VisitLeaf k c => [(k, c)]
                     | VisitNull => []
                     end) vs.

(** The number of occurrences of the character [c] in [s]. *)
Fixpoint occurrences (c : ascii) (s : string) : nat :=
  match s with
  | EmptyString => 0
  | String a s' => (if decide (a = c) then 1 else 0) + occurrences c s'
  end.

(** ** Notions used to state what [/^typeof\s+/] matches *)

(** [s] starts with a character matched by [\s]. *)
Definition startsWithWhiteSpace (s : string) : Prop :=
  ∃ w tail, w ∈ whiteSpaceChars ∧ s = w +:+ tail.

(** ** The recursion flags of one kind of tap *)

(** The [applyDefine] calls whose [recurse] variable (for the
    [evaluateIdentifier] taps), resp. [recurseTypeof] variable (for the
    [evaluateTypeof] taps), is [true]. *)
Definition flagsOf (kind : HookKind) (h : Handler) : gset nat :=
  match kind with
  | EvaluateIdentifier => recurse h
  | EvaluateTypeof => recurseTypeof h
  end.

(** A parser whose [evaluate] throws on every source text. *)
Definition failingParse (source : string) : Evaluation :=
  EvaluateThrows (Error ("Unexpected token in " +:+ source)).
(** * Properties *)

(** ** Stateful computations *)

Lemma forEachJs_app {St A} (f : A -> Js St unit) (l1 l2 : list A) (s : St) :
  forEachJs f (l1 ++ l2) s =
    match forEachJs f l1 s with
    | (Normal _, s') => forEachJs f l2 s'
    | (Throw e, s') => (Throw e, s')
    end.
Proof.
  revert s. induction l1 as [|a l1 IH]; intros s; simpl.
  - reflexivity.
  - unfold bind. destruct (f a s) as [[u|e] s']; [apply IH | reflexivity].
Qed.

(** ** The serialiser *)

(** [toCode] hands arrays and other objects to [stringifyObj]. *)
Lemma toCode_VArray rt items asiSafe :
  toCode rt (VArray items) asiSafe = stringifyObj rt (IsArray items) asiSafe.
Proof. reflexivity. Qed.

Lemma toCode_VObject rt props asiSafe :
  toCode rt (VObject props) asiSafe = stringifyObj rt (IsObject props) asiSafe.
Proof. reflexivity. Qed.

(** A runtime value is executed and its result serialised with the same
    [asiSafe]. *)
Lemma toCode_VRuntime rt fn deps asiSafe parser :
  toCode rt (VRuntime fn deps) asiSafe parser =
    (let! code := exec fn deps in toCode rt code asiSafe) parser.
Proof.
  simpl. unfold exec, bind, ret.
  destruct (execModule deps parser) as [[m|e] p]; reflexivity.
Qed.

Lemma stringifyObj_elementCodes rt obj asiSafe parser :
  stringifyObj rt obj asiSafe parser =
    match elementCodes rt obj parser with
    | (Normal codes, parser') =>
        (Normal (wrapAsi (isArray obj) asiSafe (literalOf obj codes)), parser')
    | (Throw e, parser') => (Throw e, parser')
    end.
Proof.
  destruct obj as [items|props]; unfold stringifyObj, elementCodes, bind, ret;
    simpl;
    match goal with |- context [mapJs ?f ?l ?p] => destruct (mapJs f l p) as [[codes|e] p'] end;
    reflexivity.
Qed.

(** C8: for an array or an object, [asiSafe = null] gives the literal, made
    of the elements (or of the JSON-quoted keys and the values) serialised
    with [asiSafe = null]; [true] puts an object, not an array, in
    parentheses; [false] puts a semicolon before that; any other value gives
    [Object(...)] around the literal. *)
Theorem stringifyObj_asiSafe rt obj parser raw parser' :
  stringifyObj rt obj AsiNull parser = (Normal raw, parser') →
  (∃ codes, elementCodes rt obj parser = (Normal codes, parser') ∧
            raw = literalOf obj codes) ∧
  stringifyObj rt obj AsiTrue parser =
    (Normal (if isArray obj then raw else "(" +:+ raw +:+ ")"), parser') ∧
  stringifyObj rt obj AsiFalse parser =
    (Normal (";" +:+ (if isArray obj then raw else "(" +:+ raw +:+ ")")), parser') ∧
  stringifyObj rt obj AsiUnknown parser =
    (Normal ("Object(" +:+ raw +:+ ")"), parser').
Proof.
  rewrite !stringifyObj_elementCodes.
  destruct (elementCodes rt obj parser) as [[codes|e] p]; [|discriminate].
  intros [= <- <-]. split; [eauto|].
  destruct obj; simpl; auto.
Qed.

Lemma stringifyObj_asiSafe_witness :
  let rt := {| supportsBigIntLiteral := true |} in
  let parser := {| state := None |} in
  let obj := IsObject [("a", VNumber 1); ("b", VArray [VString "x"; VNull])] in
  let raw := "{" +:+ dquote +:+ "a" +:+ dquote +:+ ":1," +:+ dquote +:+ "b" +:+ dquote +:+ ":[x,null]}" in
  stringifyObj rt obj AsiNull parser = (Normal raw, parser) ∧
  stringifyObj rt obj AsiTrue parser = (Normal ("(" +:+ raw +:+ ")"), parser) ∧
  stringifyObj rt obj AsiFalse parser = (Normal (";(" +:+ raw +:+ ")"), parser) ∧
  stringifyObj rt obj AsiUnknown parser = (Normal ("Object(" +:+ raw +:+ ")"), parser).
Proof.
  intros rt parser obj raw.
  assert (H : stringifyObj rt obj AsiNull parser = (Normal raw, parser)) by reflexivity.
  split; [exact H|].
  exact (proj2 (stringifyObj_asiSafe rt obj parser raw parser H)).
Defined.

(** ** RuntimeValue.exec *)

(** C9: executed for a parser that is parsing the module [m], a runtime
    value whose [fileDependencies] is [true] sets [cacheable] to [false] and
    leaves the file dependencies; one with a list of paths adds each path to
    the file dependencies and leaves [cacheable]; in both cases [fn] is
    called with the module and its result is returned. *)
Theorem exec_buildInfo fn deps m :
  ∃ m',
    exec fn deps {| state := Some {| module := m |} |} =
      (Normal (fn m'), {| state := Some {| module := m' |} |}) ∧
    request m' = request m ∧
    match deps with
    | DepsTrue =>
        cacheable (buildInfo m') = false ∧
        fileDependencies (buildInfo m') = fileDependencies (buildInfo m)
    | DepsList paths =>
        cacheable (buildInfo m') = cacheable (buildInfo m) ∧
        ∀ p, p ∈ fileDependencies (buildInfo m') ↔
             p ∈ fileDependencies (buildInfo m) ∨ p ∈ paths
    end.
Proof.
  exists (setBuildInfo m (markBuildInfo deps (buildInfo m))).
  split; [reflexivity|]. split; [reflexivity|].
  destruct deps as [|paths]; simpl; split; try reflexivity.
  intros p. rewrite elem_of_union, elem_of_list_to_set. reflexivity.
Qed.

(** ** Induction on code values *)

Section CodeValueInduction.
Variable P : CodeValue -> Prop.
Hypothesis HNull : P VNull.
Hypothesis HUndefined : P VUndefined.
Hypothesis HNegZero : P VNegZero.
Hypothesis HNumber : ∀ n, P (VNumber n).
Hypothesis HBoolean : ∀ b, P (VBoolean b).
Hypothesis HString : ∀ s, P (VString s).
Hypothesis HBigInt : ∀ n, P (VBigInt n).
Hypothesis HRegExp : ∀ source, P (VRegExp source).
Hypothesis HFunction : ∀ source, P (VFunction source).
Hypothesis HRuntime : ∀ fn deps, (∀ m, P (fn m)) → P (VRuntime fn deps).
Hypothesis HArray : ∀ items, Forall P items → P (VArray items).
Hypothesis HObject : ∀ props, Forall (fun kv => P (snd kv)) props → P (VObject props).

Fixpoint CodeValue_nested_ind (v : CodeValue) : P v :=
  match v with
  | VNull => HNull
  | VUndefined => HUndefined
  | VNegZero => HNegZero
  | VNumber n => HNumber n
  | VBoolean b => HBoolean b
  | VString s => HString s
  | VBigInt n => HBigInt n
  | VRegExp source => HRegExp source
  | VFunction source => HFunction source
  | VRuntime fn deps => HRuntime fn deps (fun m => CodeValue_nested_ind (fn m))
  | VArray items =>
      HArray items
        ((fix all (l : list CodeValue) : Forall P l :=
            match l with
            | [] => @List.Forall_nil _ P
            | v :: l' => @List.Forall_cons _ P v l' (CodeValue_nested_ind v) (all l')
            end) items)
  | VObject props =>
      HObject props
        ((fix all (l : list (string * CodeValue)) : Forall (fun kv => P (snd kv)) l :=
            match l with
            | [] => @List.Forall_nil _ (fun kv => P (snd kv))
            | kv :: l' =>
                @List.Forall_cons _ (fun kv => P (snd kv)) kv l'
                  (CodeValue_nested_ind (snd kv)) (all l')
            end) props)
  end.
End CodeValueInduction.

(** ** The reconciliation pass *)

Section ReconcileFacts.
Variable rt : RuntimeTemplate.
Variable newParser : JavascriptParser.
Variable cache : DefineState.

Lemma forEachJs_visitStep_leaf k c inv :
  forEachJs (visitStep rt newParser cache) [VisitLeaf k c] inv =
    runLeaf rt newParser cache k c inv.
Proof.
  simpl. unfold bind, ret.
  destruct (runLeaf rt newParser cache k c inv) as [[[]|e] inv']; reflexivity.
Qed.

(** [run] is the loop over what it visits. *)
Lemma run_visits obj :
  ∀ prefix inv,
    run rt newParser cache obj prefix inv =
      forEachJs (visitStep rt newParser cache) (visits obj prefix) inv.
Proof.
  induction obj as [| | | | | | | | | |items IHitems|props IHprops]
    using CodeValue_nested_ind; intros prefix inv; try reflexivity.
  - (* arrays *)
    simpl. generalize 0 as i. revert inv.
    induction IHitems as [|v items Hv _ IH]; intros inv i; [reflexivity|].
    simpl forEachIndexedJs. rewrite forEachJs_app. unfold bind at 1.
    destruct (isNested v) eqn:Hn.
    + rewrite <- Hv.
      destruct (run rt newParser cache v _ inv) as [[[]|e] inv'];
        [apply IH | reflexivity].
    + rewrite forEachJs_visitStep_leaf.
      destruct (runLeaf rt newParser cache _ v inv) as [[[]|e] inv'];
        [apply IH | reflexivity].
  - (* objects *)
    simpl. revert inv.
    induction IHprops as [|[k v] props Hv _ IH]; intros inv; [reflexivity|].
    simpl forEachJs. simpl flat_map. rewrite forEachJs_app. unfold bind at 1.
    simpl in Hv. simpl fst; simpl snd.
    destruct (isNested v) eqn:Hn.
    + rewrite <- Hv.
      destruct (run rt newParser cache v _ inv) as [[[]|e] inv'];
        [apply IH | reflexivity].
    + rewrite forEachJs_visitStep_leaf.
      destruct (runLeaf rt newParser cache _ v inv) as [[[]|e] inv'];
        [apply IH | reflexivity].
Qed.

Lemma compareKey_unchanged k codeStr inv :
  ¬ textChanged cache k codeStr →
  compareKey cache k codeStr inv = (Normal tt, inv).
Proof.
  unfold textChanged, compareKey. intros Hn.
  destruct (decide (codeStr = "")) as [|Hc]; [reflexivity|].
  destruct (values cache !! k) as [stored|] eqn:Hv; [|reflexivity].
  destruct (decide (stored ≠ "" ∧ codeStr ≠ stored)) as [[Hs Hd]|]; [|reflexivity].
  exfalso. apply Hn. eauto.
Qed.

Lemma compareKey_changed k codeStr inv :
  textChanged cache k codeStr →
  compareKey cache k codeStr inv =
    match modulesUsingKey cache !! k with
    | Some users => (Normal tt, inv ∪ list_to_set users)
    | None => (Throw (TypeError "Cannot read property 'forEach' of undefined"), inv)
    end.
Proof.
  unfold textChanged, compareKey. intros [Hc (stored & Hv & Hs & Hd)].
  destruct (decide (codeStr = "")); [contradiction|].
  rewrite Hv.
  destruct (decide (stored ≠ "" ∧ codeStr ≠ stored)) as [|Hn];
    [|exfalso; apply Hn; auto].
  destruct (modulesUsingKey cache !! k); reflexivity.
Qed.

Lemma textChanged_dec k codeStr :
  textChanged cache k codeStr ∨ ¬ textChanged cache k codeStr.
Proof.
  unfold textChanged.
  destruct (decide (codeStr = "")) as [|Hc]; [right; tauto|].
  destruct (values cache !! k) as [stored|] eqn:Hv;
    [|right; intros [_ (? & [=] & _)]].
  destruct (decide (stored ≠ "" ∧ codeStr ≠ stored)) as [[Hs Hd]|Hn].
  - left. eauto.
  - right. intros [_ (s & [= <-] & ? & ?)]. tauto.
Qed.

(** What one leaf does to the set: nothing, unless its key has changed
    and users are stored for it, which are then added. *)
Lemma runLeaf_spec k c inv r inv' :
  runLeaf rt newParser cache k c inv = (r, inv') →
  (inv' = inv ∧
   (r = Normal tt → ¬ keyChanged rt newParser cache k c)) ∨
  (∃ users, keyChanged rt newParser cache k c ∧
            modulesUsingKey cache !! k = Some users ∧
            r = Normal tt ∧ inv' = inv ∪ list_to_set users).
Proof.
  unfold runLeaf, keyChanged.
  destruct (recompute rt newParser c) as [codeStr|e] eqn:Hr.
  - destruct (textChanged_dec k codeStr) as [Hc|Hc].
    + rewrite (compareKey_changed _ _ _ Hc).
      destruct (modulesUsingKey cache !! k) as [users|] eqn:Hu; intros [= <- <-].
      * right. exists users. split; [exists codeStr; auto | auto].
      * left. split; [reflexivity | discriminate].
    + rewrite (compareKey_unchanged _ _ _ Hc). intros [= <- <-].
      left. split; [reflexivity|]. intros _ (s & [= <-] & ?). auto.
  - intros [= <- <-]. left. split; [reflexivity | discriminate].
Qed.

Lemma forEachJs_visitStep_spec vs :
  ∀ inv r inv',
    forEachJs (visitStep rt newParser cache) vs inv = (r, inv') →
    inv ⊆ inv' ∧
    (∀ m, m ∈ inv' →
          m ∈ inv ∨
          ∃ k c users, VisitLeaf k c ∈ vs ∧ keyChanged rt newParser cache k c ∧
                       modulesUsingKey cache !! k = Some users ∧ m ∈ users) ∧
    (r = Normal tt →
     ∀ k c users m, VisitLeaf k c ∈ vs → keyChanged rt newParser cache k c →
                    modulesUsingKey cache !! k = Some users → m ∈ users →
                    m ∈ inv').
Proof.
  induction vs as [|v vs IH]; intros inv r inv'; simpl.
  - intros [= <- <-]. split; [done|]. split; [auto|].
    intros _ k c users m Hin. by apply elem_of_nil in Hin.
  - unfold bind at 1.
    destruct (visitStep rt newParser cache v inv) as [[[]|e] inv1] eqn:Hstep.
    + intros Hrest. destruct (IH _ _ _ Hrest) as (Hsub & Hsound & Hcompl).
      destruct v as [k0 c0|]; simpl in Hstep; [|discriminate].
      destruct (runLeaf_spec _ _ _ _ _ Hstep)
        as [[-> Hunch] | (users0 & Hch & Hu & _ & ->)].
      * split; [done|]. split.
        -- intros m Hm. destruct (Hsound m Hm) as [|(k & c & users & Hin & ?)];
             [auto|]. right. exists k, c, users. split; [by right | done].
        -- intros Hr k c users m Hin Hch Hu Hm.
           apply elem_of_cons in Hin as [[= -> ->]|Hin];
             [exfalso; by apply Hunch | eauto].
      * split; [intros x Hx; by apply Hsub, elem_of_union_l|]. split.
        -- intros m Hm. destruct (Hsound m Hm) as [Hm'|(k & c & users & Hin & ?)].
           ++ apply elem_of_union in Hm' as [|Hm']; [auto|].
              right. exists k0, c0, users0. rewrite elem_of_list_to_set in Hm'.
              split; [by left | done].
           ++ right. exists k, c, users. split; [by right | done].
        -- intros Hr k c users m Hin Hch' Hu' Hm.
           apply elem_of_cons in Hin as [[= -> ->]|Hin]; [|eauto].
           apply Hsub. rewrite Hu in Hu'. injection Hu' as <-.
           apply elem_of_union_r. by apply elem_of_list_to_set.
    + intros [= <- <-].
      destruct v as [k0 c0|]; simpl in Hstep.
      * destruct (runLeaf_spec _ _ _ _ _ Hstep)
          as [[-> _] | (? & _ & _ & [=] & _)].
        split; [done|]. split; [auto | discriminate].
      * injection Hstep as _ <-. split; [done|]. split; [auto | discriminate].
Qed.

Lemma elem_of_leaves defs k c :
  (k, c) ∈ leaves defs ↔ VisitLeaf k c ∈ visits (VObject defs) "".
Proof.
  unfold leaves. rewrite list_elem_of_In, in_flat_map. split.
  - intros ([k' c'|] & Hin & Hkc); simpl in Hkc; [|tauto].
    destruct Hkc as [[= -> ->]|[]]. by apply list_elem_of_In.
  - intros Hin. exists (VisitLeaf k c). split; [by apply list_elem_of_In | by left].
Qed.
End ReconcileFacts.




(** When the text stored for every key is the text the definitions
    serialise to now, the pass adds nothing to the set, also when it stops
    on an exception. *)
Lemma run_unchanged_texts rt newParser cache defs inv :
  (∀ k c codeStr stored,
     (k, c) ∈ leaves defs → recompute rt newParser c = Normal codeStr →
     values cache !! k = Some stored → stored = codeStr) →
  snd (runDefinitions rt newParser cache defs inv) = inv.
Proof.
  intros Hsame. unfold runDefinitions. rewrite run_visits.
  destruct (forEachJs _ _ inv) as [r inv'] eqn:Hrun.
  destruct (forEachJs_visitStep_spec _ _ _ _ _ _ _ Hrun) as (Hsub & Hsound & _).
  simpl. apply set_eq. intros m. split; [|apply Hsub].
  intros Hm. destruct (Hsound m Hm) as [|(k & c & users & Hin & Hch & _)]; [done|].
  exfalso. apply elem_of_leaves in Hin.
  destruct Hch as (codeStr & Hr & _ & stored & Hv & _ & Hd).
  apply Hd. symmetry. eauto.
Qed.

Example run_unchanged_sample :
  snd (runDefinitions sampleTemplate idleParser
         {| values := {[ "VERSION" := "2"; "FLAGS.debug" := "false" ]};
            modulesUsingKey := modulesUsingKey sampleCache |}
         sampleDefinitions ∅) = ∅.
Proof.
  apply run_unchanged_texts.
  intros k c codeStr stored Hin.
  apply list_elem_of_In in Hin. vm_compute in Hin.
  destruct Hin as [[= <- <-]|[[= <- <-]|[]]]; vm_compute; congruence.
Qed.

(** C2 at two builds with the same definitions, [typeof A] and [A]: in the
    first build a module contains [typeof A]; the tap of the [typeof A]
    definition answers and its text is recorded under the key [A]; that
    state is stored.  In the second build the text recomputed for the
    definition [A] is compared with it, and the module is taken to be
    invalid although no text has changed. *)
Theorem typeof_definition_invalidates_unchanged :
  let defines := walkDefinitions (VObject typeofDefinitions) "" in
  let text := dquote +:+ "x" +:+ dquote in
  let snapshot := {| values := {[ "A" := text ]};
                     modulesUsingKey := {[ "A" := ["/src/index.js"] ]} |} in
  (fireEvaluateTypeof sampleTemplate (fun _ => Evaluated unknownExpression) defines 1
     "A" sampleExpression sampleHandler =
     Some (Normal (Some {| evaluatedString := None; evaluatedRange := Some (0, 1) |}),
           setHandlerGlobals
             (recordSubstitution "A" text "/src/index.js" initialGlobals)
             sampleHandler)) ∧
  storeCalls
    (runBuild sampleTemplate idleParser typeofDefinitions (fun s => s) (fun _ r => r)
       [CacheRead None None; Substitution "A" text "/src/index.js"; AfterCompile]) =
    [snapshot] ∧
  recompute sampleTemplate idleParser (VString text) = Normal text ∧
  recompute sampleTemplate idleParser (VNumber 1) = Normal "1" ∧
  runDefinitions sampleTemplate idleParser snapshot typeofDefinitions ∅ =
    (Normal tt, {[ "/src/index.js" ]}).
Proof. cbv zeta. repeat split; vm_compute; reflexivity. Qed.

(** C10: a leaf whose recomputed text is the empty string, or for whose key
    the stored text is the empty string, is passed over without an error
    and without a change to the set, whether or not the two texts differ:
    the pass gives what it gives without that property. *)
Theorem run_skips_empty_text rt newParser cache pre key c post prefix codeStr inv :
  isNested c = false →
  recompute rt newParser c = Normal codeStr →
  codeStr = "" ∨ values cache !! fullKeyOf prefix key = Some "" →
  runLeaf rt newParser cache (fullKeyOf prefix key) c inv = (Normal tt, inv) ∧
  run rt newParser cache (VObject (pre ++ (key, c) :: post)) prefix inv =
    run rt newParser cache (VObject (pre ++ post)) prefix inv.
Proof.
  intros Hleaf Hr Hempty.
  assert (Hskip : ∀ inv0, runLeaf rt newParser cache (fullKeyOf prefix key) c inv0 =
                          (Normal tt, inv0)).
  { intros inv0. unfold runLeaf. rewrite Hr. apply compareKey_unchanged.
    intros [Hc (stored & Hv & Hs & _)].
    destruct Hempty as [->|Hv']; [done|]. rewrite Hv' in Hv. by injection Hv as <-. }
  split; [apply Hskip|].
  simpl. rewrite !forEachJs_app.
  destruct (forEachJs _ pre inv) as [[[]|e] inv1]; [|reflexivity].
  simpl. rewrite Hleaf. unfold bind. by rewrite Hskip.
Qed.

Lemma run_skips_empty_text_witness :
  let cache := {| values := {[ "A" := "1"; "B" := "" ]};
                  modulesUsingKey := {[ "A" := ["/src/a.js"]; "B" := ["/src/b.js"] ]} |} in
  (runLeaf sampleTemplate idleParser cache "A" (VString "") ∅ = (Normal tt, ∅) ∧
   run sampleTemplate idleParser cache (VObject [("A", VString ""); ("B", VNumber 2)]) "" ∅ =
     run sampleTemplate idleParser cache (VObject [("B", VNumber 2)]) "" ∅) ∧
  (runLeaf sampleTemplate idleParser cache "B" (VNumber 2) ∅ = (Normal tt, ∅) ∧
   run sampleTemplate idleParser cache (VObject [("A", VString ""); ("B", VNumber 2)]) "" ∅ =
     run sampleTemplate idleParser cache (VObject [("A", VString "")]) "" ∅).
Proof.
  cbv zeta. split.
  - apply (run_skips_empty_text sampleTemplate idleParser _ [] "A" (VString "")
             [("B", VNumber 2)] "" "" ∅); [reflexivity | reflexivity | by left].
  - apply (run_skips_empty_text sampleTemplate idleParser _ [("A", VString "")] "B"
             (VNumber 2) [] "" "2" ∅); [reflexivity | reflexivity | right; reflexivity].
Defined.

(** C5 at a runtime value that may not be cached: the pass, given a parser
    that is not parsing a module, stops with a [TypeError]; executed for a
    parser that is parsing a module [m], the value marks [m] as not
    cacheable. *)
Theorem run_runtime_value_leaf rt cache inv m :
  let definitions := [("NOW", runtimeValue (fun _ => VNumber 1) (Some DepsTrue))] in
  runDefinitions rt idleParser cache definitions inv =
    (Throw (TypeError "Cannot read property 'module' of undefined"), inv) ∧
  snd (toCode rt (runtimeValue (fun _ => VNumber 1) (Some DepsTrue)) AsiNull (parserOf m)) =
    parserOf {| request := request m;
                buildInfo := {| cacheable := false;
                                fileDependencies := fileDependencies (buildInfo m) |} |}.
Proof. split; reflexivity. Qed.

(** ** The wrapper around the resolver-cache tap *)

Section ApplyFacts.
Variable rt : RuntimeTemplate.
Variable newParser : JavascriptParser.
Variable definitions : list (string * CodeValue).
Variable path_dirname : string -> string.
Variable path_resolve : string -> string -> string.

Lemma foldl_originalTapFn calls :
  ∀ c, foldl (fun c call => originalTapFn call c) c calls =
       {| globals := globals c;
          reconcilePromise := reconcilePromise c;
          reactions := reactions c;
          originalTapFnCalls := originalTapFnCalls c ++ calls;
          storeCalls := storeCalls c;
          unhandledRejections := unhandledRejections c |}.
Proof.
  induction calls as [|call calls IH]; intros c; simpl.
  - rewrite app_nil_r. by destruct c.
  - rewrite IH. simpl. by rewrite <- app_assoc.
Qed.

(** Lookups made while the promise is pending wait for it. *)
Lemma foldl_tapFn_pending calls :
  ∀ c, reconcilePromise c = Pending →
       foldl (step rt newParser definitions path_dirname path_resolve) c
             (map Resolve calls) =
       {| globals := globals c;
          reconcilePromise := Pending;
          reactions := reactions c ++ calls;
          originalTapFnCalls := originalTapFnCalls c;
          storeCalls := storeCalls c;
          unhandledRejections := unhandledRejections c |}.
Proof.
  induction calls as [|call calls IH]; intros c Hp; simpl.
  - rewrite app_nil_r. destruct c; simpl in *; by subst.
  - unfold tapFn. rewrite Hp. rewrite IH by reflexivity. simpl.
    by rewrite <- app_assoc.
Qed.

Lemma foldl_tapFn_rejected calls :
  ∀ c err, reconcilePromise c = Rejected err →
           foldl (step rt newParser definitions path_dirname path_resolve) c
                 (map Resolve calls) =
           {| globals := globals c;
              reconcilePromise := Rejected err;
              reactions := reactions c;
              originalTapFnCalls := originalTapFnCalls c ++ calls;
              storeCalls := storeCalls c;
              unhandledRejections := unhandledRejections c |}.
Proof.
  induction calls as [|call calls IH]; intros c err Hp; simpl.
  - rewrite app_nil_r. destruct c; simpl in *; by subst.
  - unfold tapFn. rewrite Hp. unfold react, onReconcileFailed.
    rewrite (IH _ err) by exact Hp. simpl. by rewrite <- app_assoc.
Qed.

(** C6: the stored state cannot be read while the promise is pending.
    When a lookup is waiting for the promise, the rejection is handled:
    every lookup, whether it was waiting or comes after the rejection, is
    handed to the original tap, once, with the request as it came, and the
    module-level variables stay as they were.  When no lookup is waiting,
    the rejection has no handler: the handlers are attached for each lookup
    only, and none was. *)
Theorem read_error_needs_waiting_lookup c err raw before after :
  reconcilePromise c = Pending →
  let read := foldl (step rt newParser definitions path_dirname path_resolve) c
                (map Resolve before ++ [CacheRead (Some err) raw]) in
  let c' := foldl (step rt newParser definitions path_dirname path_resolve) read
              (map Resolve after) in
  reconcilePromise read = Rejected err ∧
  globals read = globals c ∧
  match reactions c ++ before with
  | [] =>
      unhandledRejections read = unhandledRejections c ++ [err] ∧
      originalTapFnCalls read = originalTapFnCalls c
  | _ :: _ =>
      unhandledRejections c' = unhandledRejections c ∧
      originalTapFnCalls c' =
        originalTapFnCalls c ++ (reactions c ++ before) ++ after ∧
      reactions c' = [] ∧
      reconcilePromise c' = Rejected err ∧
      globals c' = globals c
  end.
Proof.
  intros Hp read c'. subst c' read.
  rewrite foldl_app, foldl_tapFn_pending by exact Hp.
  cbn [foldl step onCacheRead snd]. unfold rejectReconcile, settle.
  cbn [reconcilePromise reactions]. unfold react, onReconcileFailed.
  rewrite foldl_originalTapFn.
  erewrite foldl_tapFn_rejected by reflexivity.
  cbn [globals reconcilePromise reactions originalTapFnCalls storeCalls
       unhandledRejections].
  split; [done|]. split; [done|].
  destruct (reactions c ++ before) as [|call waiting].
  - by rewrite app_nil_r.
  - by rewrite <- !app_assoc.
Qed.

(** What is handed to the original tap for the [i]-th of the lookups
    [calls] made once the promise is fulfilled, a stored state was found
    and the set is [invalid]. *)
Lemma react_fulfilled call c :
  cacheEmpty (globals c) = false →
  react path_dirname path_resolve Fulfilled call c =
    match lookupPath path_dirname path_resolve call with
    | Some modulePath =>
        if decide (modulePath ∈ invalidModulePaths (globals c)) then
          originalTapFn (forceRealResolve call)
            (setGlobals
               (setInvalidModulePaths
                  (invalidModulePaths (globals c) ∖ {[modulePath]}) (globals c))
               c)
        else originalTapFn call c
    | None => originalTapFn call c
    end.
Proof.
  intros Hce. unfold react, onReconciled, lookupPath. rewrite Hce.
  destruct (modulePathOf _ _ _) as [modulePath|e]; [|reflexivity].
  by destruct (decide _).
Qed.

Lemma react_promise outcome call c :
  reconcilePromise (react path_dirname path_resolve outcome call c) =
    reconcilePromise c.
Proof.
  unfold react, onReconciled, onReconcileFailed.
  destruct outcome; try reflexivity;
    (destruct (cacheEmpty (globals c)); [reflexivity|]);
    (destruct (modulePathOf _ _ _); [|reflexivity]);
    by destruct (decide _).
Qed.

Lemma foldl_react_promise outcome calls :
  ∀ c, reconcilePromise
         (foldl (fun c call => react path_dirname path_resolve outcome call c)
                c calls) = reconcilePromise c.
Proof.
  induction calls as [|call calls IH]; intros c; [reflexivity|].
  cbn [foldl]. by rewrite IH, react_promise.
Qed.

Lemma foldl_react_fulfilled calls :
  ∀ c, cacheEmpty (globals c) = false →
    foldl (fun c call => react path_dirname path_resolve Fulfilled call c) c calls =
      {| globals :=
           setInvalidModulePaths
             (invalidModulePaths (globals c) ∖
                list_to_set (omap (lookupPath path_dirname path_resolve) calls))
             (globals c);
         reconcilePromise := reconcilePromise c;
         reactions := reactions c;
         originalTapFnCalls :=
           originalTapFnCalls c ++
           imap (fun i call =>
                   match lookupPath path_dirname path_resolve call with
                   | Some modulePath =>
                       if decide
                            (modulePath ∈ invalidModulePaths (globals c) ∧
                             Some modulePath ∉
                               map (lookupPath path_dirname path_resolve)
                                   (take i calls))
                       then forceRealResolve call else call
                   | None => call
                   end) calls;
         storeCalls := storeCalls c;
         unhandledRejections := unhandledRejections c |}.
Proof.
  induction calls as [|call0 calls IH]; intros c Hce.
  - simpl. rewrite app_nil_r.
    replace (invalidModulePaths (globals c) ∖ ∅) with (invalidModulePaths (globals c))
      by set_solver.
    destruct c as [[]]; reflexivity.
  - cbn [foldl]. rewrite react_fulfilled by exact Hce.
    rewrite imap_cons. cbn [take map].
    change (omap (lookupPath path_dirname path_resolve) (call0 :: calls))
      with (match lookupPath path_dirname path_resolve call0 with
            | Some y => y :: omap (lookupPath path_dirname path_resolve) calls
            | None => omap (lookupPath path_dirname path_resolve) calls
            end).
    destruct (lookupPath path_dirname path_resolve call0) as [p0|] eqn:Hp0.
    + destruct (decide (p0 ∈ invalidModulePaths (globals c))) as [Hin|Hnin].
      * rewrite IH by exact Hce.
        destruct (decide (p0 ∈ invalidModulePaths (globals c) ∧ Some p0 ∉ []))
          as [_|Hn]; [|destruct Hn; split; [done | apply not_elem_of_nil]].
        cbn [globals reconcilePromise reactions originalTapFnCalls storeCalls
             unhandledRejections originalTapFn setGlobals setInvalidModulePaths
             invalidModulePaths runState didAfterCompileHookRun didCodeGeneration
             cacheEmpty].
        rewrite <- app_assoc. cbn [app]. f_equal.
        -- unfold setInvalidModulePaths. f_equal. set_solver.
        -- f_equal. f_equal. apply imap_ext. intros i call Hi. cbn.
           destruct (lookupPath path_dirname path_resolve call) as [p|]; [|done].
           apply decide_ext.
           rewrite elem_of_difference, not_elem_of_cons, elem_of_singleton.
           split; [intros [[? ?] ?]; repeat split; congruence|].
           intros [? [? ?]]. repeat split; try done. congruence.
      * rewrite IH by exact Hce.
        destruct (decide (p0 ∈ invalidModulePaths (globals c) ∧ Some p0 ∉ []))
          as [[? _]|_]; [done|].
        cbn [globals reconcilePromise reactions originalTapFnCalls storeCalls
             unhandledRejections originalTapFn].
        rewrite <- app_assoc. cbn [app]. f_equal.
        -- unfold setInvalidModulePaths. f_equal. set_solver.
        -- f_equal. f_equal. apply imap_ext. intros i call Hi. cbn.
           destruct (lookupPath path_dirname path_resolve call) as [p|]; [|done].
           apply decide_ext. rewrite not_elem_of_cons.
           split; [intros [? ?]; repeat split; try done; congruence | tauto].
    + rewrite IH by exact Hce.
      cbn [globals reconcilePromise reactions originalTapFnCalls storeCalls
           unhandledRejections originalTapFn].
      rewrite <- app_assoc. cbn [app]. f_equal. f_equal. f_equal.
      apply imap_ext. intros i call Hi. cbn.
      destruct (lookupPath path_dirname path_resolve call) as [p|]; [|done].
      apply decide_ext. rewrite not_elem_of_cons. split; [|tauto].
      intros [? ?]. rewrite Hp0. repeat split; done.
Qed.

Lemma foldl_tapFn_fulfilled calls :
  ∀ c, reconcilePromise c = Fulfilled →
       foldl (step rt newParser definitions path_dirname path_resolve) c
             (map Resolve calls) =
       foldl (fun c call => react path_dirname path_resolve Fulfilled call c) c calls.
Proof.
  induction calls as [|call calls IH]; intros c Hp; [reflexivity|].
  cbn [map foldl step].
  assert (Htap : tapFn path_dirname path_resolve call c =
                 react path_dirname path_resolve Fulfilled call c)
    by (unfold tapFn; by rewrite Hp).
  rewrite Htap. apply IH. by rewrite react_promise.
Qed.

Lemma foldl_react_unarmed outcome calls :
  ∀ c, cacheEmpty (globals c) = true ∨ (∃ e, outcome = Rejected e) →
       foldl (fun c call => react path_dirname path_resolve outcome call c) c calls =
       {| globals := globals c;
          reconcilePromise := reconcilePromise c;
          reactions := reactions c;
          originalTapFnCalls := originalTapFnCalls c ++ calls;
          storeCalls := storeCalls c;
          unhandledRejections := unhandledRejections c |}.
Proof.
  intros c Hc. rewrite <- foldl_originalTapFn. revert c Hc.
  induction calls as [|call calls IH]; intros c Hc; [reflexivity|].
  cbn [foldl].
  assert (Hreact : react path_dirname path_resolve outcome call c =
                   originalTapFn call c).
  { destruct Hc as [He|[e ->]]; [|reflexivity].
    unfold react, onReconciled, onReconcileFailed. rewrite He.
    by destruct outcome. }
  rewrite Hreact. apply IH. destruct Hc as [He|He]; [by left | by right].
Qed.

(** C3: whatever the state of the process, a stored state is read and the
    pass runs to its end leaving the set [invalid]; the lookups that were
    waiting and those that follow are handed to the original tap, once and
    in order.  If [cacheEmpty] is [false] and the promise was not rejected
    before, the request is handed over with [_forceRealResolve] set to
    [true], and otherwise as it came, exactly when its module path can be
    computed, is in [invalid] and no earlier lookup had the same module
    path, and the paths looked up are removed from the set.  But if
    [cacheEmpty] is [true], from an earlier cache read of the process that
    found nothing stored, or if the promise was rejected by an earlier read
    error, every request is handed over as it came and the set stays as the
    pass left it: neither the variable nor the promise is ever set back. *)
Theorem lookups_after_load c cache invalid after :
  reconcilePromise c = Pending ∨ reactions c = [] →
  runDefinitions rt newParser cache definitions (invalidModulePaths (globals c)) =
    (Normal tt, invalid) →
  let pathOf := lookupPath path_dirname path_resolve in
  let calls := reactions c ++ after in
  let c' := foldl (step rt newParser definitions path_dirname path_resolve) c
              (CacheRead None (Some cache) :: map Resolve after) in
  (cacheEmpty (globals c) = false → (∀ e, reconcilePromise c ≠ Rejected e) →
   originalTapFnCalls c' =
     originalTapFnCalls c ++
     imap (fun i call =>
             match pathOf call with
             | Some modulePath =>
                 if decide (modulePath ∈ invalid ∧
                            Some modulePath ∉ map pathOf (take i calls))
                 then {| resolveRequest :=
                           {| issuer := issuer (resolveRequest call);
                              requestString := requestString (resolveRequest call);
                              _forceRealResolve := true |};
                         resolveContext := resolveContext call;
                         callback := callback call |}
                 else call
             | None => call
             end) calls ∧
   invalidModulePaths (globals c') = invalid ∖ list_to_set (omap pathOf calls)) ∧
  (cacheEmpty (globals c) = true ∨ (∃ e, reconcilePromise c = Rejected e) →
   originalTapFnCalls c' = originalTapFnCalls c ++ calls ∧
   invalidModulePaths (globals c') = invalid).
Proof.
  intros Hstate Hrun pathOf calls c'. subst c' calls pathOf.
  cbn [foldl step]. unfold onCacheRead. rewrite Hrun. cbn [snd].
  unfold resolveReconcile, settle. cbn [reconcilePromise setGlobals].
  split.
  - intros Hce Hnot. destruct (reconcilePromise c) as [| |e] eqn:Hp.
    + cbn [reactions].
      rewrite foldl_tapFn_fulfilled by (by rewrite foldl_react_promise).
      rewrite <- foldl_app. rewrite foldl_react_fulfilled by exact Hce.
      cbn. done.
    + destruct Hstate as [[=]|Hnone].
      rewrite foldl_tapFn_fulfilled by exact Hp.
      rewrite foldl_react_fulfilled by exact Hce.
      rewrite Hnone. cbn. done.
    + by destruct (Hnot e).
  - intros Hunarmed. destruct (reconcilePromise c) as [| |e] eqn:Hp.
    + destruct Hunarmed as [He|[e [=]]]. cbn [reactions].
      rewrite foldl_tapFn_fulfilled by (by rewrite foldl_react_promise).
      rewrite <- foldl_app. rewrite foldl_react_unarmed by (by left).
      cbn. done.
    + destruct Hstate as [[=]|Hnone]. destruct Hunarmed as [He|[e [=]]].
      rewrite foldl_tapFn_fulfilled by exact Hp.
      rewrite foldl_react_unarmed by (by left).
      rewrite Hnone. cbn. done.
    + destruct Hstate as [[=]|Hnone].
      erewrite foldl_tapFn_rejected by exact Hp.
      rewrite Hnone. cbn. done.
Qed.
End ApplyFacts.

Lemma lookups_after_load_witness :
  let dirname := fun s : string => s in
  let resolve := fun _ r : string => r in
  let build1 := [CacheRead None None; Resolve (sampleCall "/src/main.js" 0)] in
  let c := runBuild sampleTemplate idleParser sampleDefinitions dirname resolve
             build1 in
  let after := [sampleCall "/src/index.js" 1] in
  let c' := foldl (step sampleTemplate idleParser sampleDefinitions dirname resolve) c
              (CacheRead None (Some sampleCache) :: map Resolve after) in
  cacheEmpty (globals c) = true ∧
  originalTapFnCalls c' = [sampleCall "/src/main.js" 0; sampleCall "/src/index.js" 1] ∧
  invalidModulePaths (globals c') = {[ "/src/index.js"; "/src/about.js" ]}.
Proof.
  intros dirname resolve build1 c after c'.
  destruct (lookups_after_load sampleTemplate idleParser sampleDefinitions
              dirname resolve c sampleCache
              {[ "/src/index.js"; "/src/about.js" ]} after)
    as (_ & Hunarmed).
  - right. reflexivity.
  - vm_compute. reflexivity.
  - destruct Hunarmed as [Hcalls Hset]; [left; reflexivity|].
    split; [reflexivity|]. split; [exact Hcalls | exact Hset].
Defined.

(** In a process that has made no cache read before, lookups that waited,
    lookups that follow, and a lookup without issuer. *)
Example lookups_after_first_load :
  let noIssuer :=
    {| resolveRequest :=
         {| issuer := None; requestString := "/src/about.js";
            _forceRealResolve := false |};
       resolveContext := 4;
       callback := 4 |} in
  let c' := runBuild sampleTemplate idleParser sampleDefinitions
              (fun s => s) (fun _ r => r)
              [Resolve (sampleCall "/src/index.js" 1);
               CacheRead None (Some sampleCache);
               Resolve (sampleCall "/src/index.js" 2);
               Resolve (sampleCall "/src/log.js" 3);
               Resolve noIssuer;
               Resolve (sampleCall "/src/about.js" 5)] in
  originalTapFnCalls c' =
    [ {| resolveRequest :=
           {| issuer := Some "/src/index.js"; requestString := "/src/index.js";
              _forceRealResolve := true |};
         resolveContext := 1;
         callback := 1 |};
      sampleCall "/src/index.js" 2;
      sampleCall "/src/log.js" 3;
      noIssuer;
      {| resolveRequest :=
           {| issuer := Some "/src/index.js"; requestString := "/src/about.js";
              _forceRealResolve := true |};
         resolveContext := 5;
         callback := 5 |} ] ∧
  invalidModulePaths (globals c') = ∅.
Proof. vm_compute. done. Qed.

(** The first lookup of [/src/index.js] is forced, the second is not. *)
Example lookups_of_one_path :
  originalTapFnCalls
    (runBuild sampleTemplate idleParser sampleDefinitions (fun s => s) (fun _ r => r)
       [CacheRead None (Some sampleCache);
        Resolve (sampleCall "/src/index.js" 1);
        Resolve (sampleCall "/src/log.js" 2);
        Resolve (sampleCall "/src/index.js" 3)]) =
    [ {| resolveRequest :=
           {| issuer := Some "/src/index.js"; requestString := "/src/index.js";
              _forceRealResolve := true |};
         resolveContext := 1;
         callback := 1 |};
      sampleCall "/src/log.js" 2;
      sampleCall "/src/index.js" 3].
Proof. vm_compute. reflexivity. Qed.

Lemma read_error_needs_waiting_lookup_witness :
  let dirname := fun s : string => s in
  let resolve := fun _ r : string => r in
  let err := Error "ENOENT: no such file or directory" in
  let read := foldl (step sampleTemplate idleParser sampleDefinitions dirname resolve)
                initialCompiler (map Resolve [] ++ [CacheRead (Some err) None]) in
  reconcilePromise initialCompiler = Pending ∧
  reconcilePromise read = Rejected err ∧
  globals read = initialGlobals ∧
  unhandledRejections read = [err] ∧
  originalTapFnCalls read = [].
Proof.
  intros dirname resolve err read.
  split; [reflexivity|].
  destruct (read_error_needs_waiting_lookup sampleTemplate idleParser
              sampleDefinitions dirname resolve initialCompiler err None [] []
              eq_refl) as (Hp & Hg & Hu & Hcalls).
  done.
Defined.

(** With a lookup waiting when the read fails, the rejection is handled
    and all lookups are handed on. *)
Example read_error_with_waiting_lookup :
  let c' := runBuild sampleTemplate idleParser sampleDefinitions
              (fun s => s) (fun _ r => r)
              [Resolve (sampleCall "/src/index.js" 1);
               CacheRead (Some (Error "ENOENT: no such file or directory")) None;
               Resolve (sampleCall "/src/log.js" 2)] in
  originalTapFnCalls c' = [sampleCall "/src/index.js" 1; sampleCall "/src/log.js" 2] ∧
  unhandledRejections c' = [].
Proof. vm_compute. done. Qed.

(** ** Storing the state after the compilation *)

Section StoreFacts.
Variable rt : RuntimeTemplate.
Variable newParser : JavascriptParser.
Variable definitions : list (string * CodeValue).
Variable path_dirname : string -> string.
Variable path_resolve : string -> string -> string.

Lemma foldl_storeView (f : ResolveCall -> Compiler -> Compiler) calls :
  (∀ call c, storeView (f call c) = storeView c) →
  ∀ c, storeView (foldl (fun c call => f call c) c calls) = storeView c.
Proof.
  intros Hf. induction calls as [|call calls IH]; intros c; [reflexivity|].
  simpl. by rewrite IH, Hf.
Qed.

Lemma react_storeView outcome call c :
  storeView (react path_dirname path_resolve outcome call c) = storeView c.
Proof.
  unfold react, onReconciled, onReconcileFailed.
  destruct outcome; try reflexivity;
    (destruct (cacheEmpty (globals c)); [reflexivity|]);
    (destruct (modulePathOf _ _ _); [|reflexivity]);
    by destruct (decide _).
Qed.

Lemma settle_storeView outcome c :
  storeView (settle path_dirname path_resolve outcome c) = storeView c.
Proof.
  unfold settle. destruct (reconcilePromise c); try reflexivity.
  rewrite foldl_storeView; [reflexivity|]. intros. apply react_storeView.
Qed.

(** Reading the stored state and looking modules up leave these alone. *)
Lemma step_storeView c ev :
  (∀ k s m, ev ≠ Substitution k s m) → ev ≠ AfterCompile →
  storeView (step rt newParser definitions path_dirname path_resolve c ev) =
    storeView c.
Proof.
  intros Hs Ha. destruct ev as [err raw|call|k s m|]; simpl.
  - unfold onCacheRead. destruct err as [e|].
    + apply settle_storeView.
    + destruct raw as [cache|].
      * destruct (runDefinitions _ _ _ _ _) as [[[]|e] paths]; simpl;
          [unfold resolveReconcile; by rewrite settle_storeView | reflexivity].
      * simpl. unfold resolveReconcile. by rewrite settle_storeView.
  - unfold tapFn. destruct (reconcilePromise c); try reflexivity;
      apply react_storeView.
  - by destruct (Hs k s m).
  - by destruct Ha.
Qed.

Lemma runBuild_snoc events ev :
  runBuild rt newParser definitions path_dirname path_resolve (events ++ [ev]) =
    step rt newParser definitions path_dirname path_resolve
      (runBuild rt newParser definitions path_dirname path_resolve events) ev.
Proof. unfold runBuild. by rewrite foldl_app. Qed.

Lemma storesAfter_snoc pre events ev :
  storesAfter pre (events ++ [ev]) ↔
  storesAfter pre events ∨ (ev = AfterCompile ∧ pre = events ∧ hasSubstitution events).
Proof.
  unfold storesAfter. split.
  - intros (post & Heq & Hsub).
    destruct (decide (post = [])) as [->|Hne].
    + apply app_inj_tail in Heq as [<- <-]. auto.
    + destruct (exists_last Hne) as (post' & ev' & ->).
      rewrite app_comm_cons, app_assoc in Heq.
      apply app_inj_tail in Heq as [-> <-]. left. eauto.
  - intros [(post & -> & Hsub)|(-> & -> & Hsub)].
    + exists (post ++ [ev]). by rewrite <- app_assoc.
    + by exists [].
Qed.

Lemma hasSubstitution_snoc events ev :
  hasSubstitution (events ++ [ev]) ↔
  hasSubstitution events ∨ ∃ k s m, ev = Substitution k s m.
Proof.
  unfold hasSubstitution. split.
  - intros (k & s & m & Hin). apply elem_of_app in Hin as [Hin|Hin]; [eauto 6|].
    apply list_elem_of_singleton in Hin. eauto 6.
  - intros [(k & s & m & Hin)|(k & s & m & ->)]; exists k, s, m;
      apply elem_of_app; [by left | right; by apply list_elem_of_singleton].
Qed.

Lemma storesAfter_nil pre : ¬ storesAfter pre [].
Proof. intros (post & Heq & _). by destruct pre. Qed.

Lemma runBuild_store_invariant events :
  let c := runBuild rt newParser definitions path_dirname path_resolve events in
  (didCodeGeneration (globals c) = true ↔ hasSubstitution events) ∧
  (didAfterCompileHookRun (globals c) = true ↔ storeCalls c ≠ []) ∧
  ((storeCalls c = [] ∧ ∀ pre, ¬ storesAfter pre events) ∨
   ∃ pre, storesAfter pre events ∧
          storeCalls c =
            [runState (globals (runBuild rt newParser definitions
                                  path_dirname path_resolve pre))]).
Proof.
  induction events as [|ev events IH] using rev_ind.
  - simpl. split; [|split].
    + split; [discriminate|]. intros (k & s & m & Hin). by apply elem_of_nil in Hin.
    + split; [discriminate | done].
    + left. split; [reflexivity|]. apply storesAfter_nil.
  - cbv zeta in IH. destruct IH as (IHa & IHb & IHc). cbv zeta.
    rewrite runBuild_snoc.
    set (c := runBuild rt newParser definitions path_dirname path_resolve events) in *.
    assert (Hframe : storeView (step rt newParser definitions path_dirname
                                  path_resolve c ev) = storeView c →
                     (∀ k s m, ev ≠ Substitution k s m) → ev ≠ AfterCompile →
      (didCodeGeneration (globals (step rt newParser definitions path_dirname
                                     path_resolve c ev)) = true ↔
         hasSubstitution (events ++ [ev])) ∧
      (didAfterCompileHookRun (globals (step rt newParser definitions path_dirname
                                          path_resolve c ev)) = true ↔
         storeCalls (step rt newParser definitions path_dirname path_resolve c ev) ≠ []) ∧
      ((storeCalls (step rt newParser definitions path_dirname path_resolve c ev) = [] ∧
        ∀ pre, ¬ storesAfter pre (events ++ [ev])) ∨
       ∃ pre, storesAfter pre (events ++ [ev]) ∧
              storeCalls (step rt newParser definitions path_dirname path_resolve c ev) =
                [runState (globals (runBuild rt newParser definitions
                                      path_dirname path_resolve pre))])).
    { unfold storeView. intros [= H1 H2 H3 H4] Hs Ha. rewrite H1, H2, H4.
      rewrite hasSubstitution_snoc. split; [|split; [exact IHb|]].
      - rewrite IHa. split; [auto|]. intros [|(k & s & m & ->)]; [done|].
        by destruct (Hs k s m).
      - destruct IHc as [[Hnil Hnone]|(pre & Hpre & Hst)].
        + left. split; [done|]. intros pre. rewrite storesAfter_snoc.
          intros [?|(-> & _)]; [by eapply Hnone | done].
        + right. exists pre. rewrite storesAfter_snoc. auto. }
    destruct ev as [err raw|call|k s m|].
    + apply Hframe; [by apply step_storeView | done | done].
    + apply Hframe; [by apply step_storeView | done | done].
    + simpl. rewrite hasSubstitution_snoc. split; [|split; [exact IHb|]].
      * split; [intros _; right; eauto | done].
      * destruct IHc as [[Hnil Hnone]|(pre & Hpre & Hst)].
        -- left. split; [done|]. intros pre. rewrite storesAfter_snoc.
           intros [?|([=] & _)]. by eapply Hnone.
        -- right. exists pre. rewrite storesAfter_snoc. auto.
    + simpl. unfold afterCompile.
      destruct (didAfterCompileHookRun (globals c)) eqn:Hrun.
      * rewrite hasSubstitution_snoc, Hrun. split; [|split; [exact IHb|]].
        -- rewrite IHa. split; [auto|]. by intros [|(k & s & m & [=])].
        -- destruct IHc as [[Hnil _]|(pre & Hpre & Hst)].
           ++ exfalso. by apply IHb.
           ++ right. exists pre. rewrite storesAfter_snoc. auto.
      * destruct (didCodeGeneration (globals c)) eqn:Hgen; simpl.
        -- rewrite hasSubstitution_snoc. split; [|split].
           ++ rewrite Hgen, IHa. split; [auto|]. by intros [|(k & s & m & [=])].
           ++ split; [intros _; by destruct (storeCalls c) | done].
           ++ right. exists events. rewrite storesAfter_snoc.
              split; [right; split; [done|]; split; [done|]; by apply IHa|].
              destruct (storeCalls c) eqn:Hst; [reflexivity|].
              exfalso. assert (false = true) by (by apply IHb). done.
        -- rewrite hasSubstitution_snoc, Hrun, Hgen. split; [|split; [exact IHb|]].
           ++ rewrite IHa. split; [auto|]. by intros [|(k & s & m & [=])].
           ++ left. destruct IHc as [[Hnil Hnone]|(pre & Hpre & Hst)].
              ** split; [done|]. intros pre. rewrite storesAfter_snoc.
                 intros [?|(_ & _ & Hsub)]; [by eapply Hnone|].
                 apply IHa in Hsub. congruence.
              ** exfalso. assert (Hne : storeCalls c ≠ []) by (by rewrite Hst).
                 apply IHb in Hne. congruence.
Qed.

(** From the start of the process on the state is stored at most once; it
    is stored when, and only when, an [afterCompile] signal comes after a
    substitution was recorded, and what is stored is the state as it is at
    the first such signal; once the state was stored, the [afterCompile] tap
    does nothing more. *)
Lemma state_stored_once events :
  let c := runBuild rt newParser definitions path_dirname path_resolve events in
  (length (storeCalls c) ≤ 1)%nat ∧
  (storeCalls c ≠ [] ↔ ∃ pre, storesAfter pre events) ∧
  (∀ stored, stored ∈ storeCalls c →
     ∃ pre, storesAfter pre events ∧
            stored = runState (globals (runBuild rt newParser definitions
                                          path_dirname path_resolve pre))) ∧
  (¬ hasSubstitution events → storeCalls c = []) ∧
  (storeCalls c ≠ [] → afterCompile c = c).
Proof.
  cbv zeta. destruct (runBuild_store_invariant events) as (Ha & Hb & Hc).
  cbv zeta in Ha, Hb, Hc.
  set (c := runBuild rt newParser definitions path_dirname path_resolve events) in *.
  split; [|split; [|split; [|split]]].
  - destruct Hc as [[-> _]|(pre & _ & ->)]; simpl; lia.
  - destruct Hc as [[Hnil Hnone]|(pre & Hpre & Hst)].
    + rewrite Hnil. split; [done|]. intros (pre & Hpre). by destruct (Hnone pre).
    + rewrite Hst. split; [eauto | done].
  - intros stored Hin. destruct Hc as [[Hnil _]|(pre & Hpre & Hst)].
    + rewrite Hnil in Hin. by apply elem_of_nil in Hin.
    + rewrite Hst in Hin. apply list_elem_of_singleton in Hin. eauto.
  - intros Hno. destruct Hc as [[Hnil _]|(pre & (post & -> & Hsub) & _)]; [done|].
    destruct Hno. destruct Hsub as (k & s & m & Hin). exists k, s, m.
    apply elem_of_app. by left.
  - intros Hne. apply Hb in Hne. unfold afterCompile. by rewrite Hne.
Qed.

Lemma step_after_store c ev :
  didAfterCompileHookRun (globals c) = true →
  didAfterCompileHookRun
    (globals (step rt newParser definitions path_dirname path_resolve c ev)) = true ∧
  storeCalls (step rt newParser definitions path_dirname path_resolve c ev) =
    storeCalls c.
Proof.
  intros Hrun. destruct ev as [err raw|call|k s m|].
  - assert (Hview : storeView (step rt newParser definitions path_dirname
                                 path_resolve c (CacheRead err raw)) = storeView c)
      by (by apply step_storeView).
    unfold storeView in Hview. injection Hview as H1 _ _ H4.
    split; [etransitivity; [exact H1 | exact Hrun] | exact H4].
  - assert (Hview : storeView (step rt newParser definitions path_dirname
                                 path_resolve c (Resolve call)) = storeView c)
      by (by apply step_storeView).
    unfold storeView in Hview. injection Hview as H1 _ _ H4.
    split; [etransitivity; [exact H1 | exact Hrun] | exact H4].
  - done.
  - cbn [step]. unfold afterCompile. by rewrite Hrun.
Qed.

Lemma foldl_step_after_store events :
  ∀ c, didAfterCompileHookRun (globals c) = true →
       didAfterCompileHookRun
         (globals (foldl (step rt newParser definitions path_dirname path_resolve)
                     c events)) = true ∧
       storeCalls (foldl (step rt newParser definitions path_dirname path_resolve)
                     c events) = storeCalls c.
Proof.
  induction events as [|ev events IH]; intros c Hrun; [done|].
  cbn [foldl]. destruct (step_after_store c ev Hrun) as [Hrun' Hstore].
  destruct (IH _ Hrun') as [-> ->]. done.
Qed.

(** C4: the variables [didAfterCompileHookRun] and [didCodeGeneration]
    belong to the module and are never set back.  Once a build has stored
    the state, which it does once, what follows in the process stores
    nothing: a later build that records substitutions and gets its
    [afterCompile] signal leaves the stored state as the earlier build wrote
    it. *)
Theorem later_build_stores_nothing build1 build2 :
  storeCalls (runBuild rt newParser definitions path_dirname path_resolve build1)
    ≠ [] →
  length (storeCalls (runBuild rt newParser definitions path_dirname path_resolve
                        build1)) = 1 ∧
  storeCalls (runBuild rt newParser definitions path_dirname path_resolve
                (build1 ++ build2)) =
    storeCalls (runBuild rt newParser definitions path_dirname path_resolve build1) ∧
  didAfterCompileHookRun
    (globals (runBuild rt newParser definitions path_dirname path_resolve
                (build1 ++ build2))) = true.
Proof.
  intros Hstored.
  destruct (runBuild_store_invariant build1) as (_ & Hb & Hc). cbv zeta in Hb, Hc.
  split.
  - destruct Hc as [[Hnil _]|(pre & _ & ->)]; done.
  - apply Hb in Hstored.
    destruct (foldl_step_after_store build2 _ Hstored) as [Hrun Hsame].
    unfold runBuild in *. rewrite foldl_app. done.
Qed.
End StoreFacts.

Lemma later_build_stores_nothing_witness :
  let dirname := fun s : string => s in
  let resolve := fun _ r : string => r in
  let stored := {| values := {[ "VERSION" := "2" ]};
                   modulesUsingKey := {[ "VERSION" := ["/src/index.js"] ]} |} in
  let build1 := [CacheRead None None;
                 Substitution "VERSION" "2" "/src/index.js"; AfterCompile] in
  let build2 := [CacheRead None (Some stored);
                 Substitution "VERSION" "2" "/src/about.js"; AfterCompile] in
  let c := runBuild sampleTemplate idleParser sampleDefinitions dirname resolve
             (build1 ++ build2) in
  storeCalls (runBuild sampleTemplate idleParser sampleDefinitions dirname resolve
                build1) = [stored] ∧
  storeCalls c = [stored] ∧
  modulesUsingKey (runState (globals c)) !! "VERSION" =
    Some ["/src/index.js"; "/src/about.js"] ∧
  didAfterCompileHookRun (globals c) = true.
Proof.
  intros dirname resolve stored build1 build2 c.
  assert (H1 : storeCalls (runBuild sampleTemplate idleParser sampleDefinitions
                             dirname resolve build1) = [stored])
    by (vm_compute; reflexivity).
  destruct (later_build_stores_nothing sampleTemplate idleParser sampleDefinitions
              dirname resolve build1 build2) as (_ & H2 & H3).
  - rewrite H1. discriminate.
  - split; [exact H1|]. split; [by rewrite <- H1|]. split; [|exact H3].
    vm_compute. reflexivity.
Defined.

(** ** The taps of [applyDefine] *)

Lemma flagsKept_refl h : flagsKept h h.
Proof. split; done. Qed.

Lemma flagsKept_trans h1 h2 h3 : flagsKept h1 h2 → flagsKept h2 h3 → flagsKept h1 h3.
Proof. intros [? ?] [? ?]. split; set_solver. Qed.

Lemma settles_hret {A} (a : A) h : settles (hret a) h.
Proof. exists (Normal a), h. split; [reflexivity | apply flagsKept_refl]. Qed.

Lemma settles_hbind {A B} (c : Hook A) (k : A -> Hook B) h :
  settles c h →
  (∀ a h', c h = Some (Normal a, h') → flagsKept h h' → settles (k a) h') →
  settles (hbind c k) h.
Proof.
  intros (r & h' & Hc & Hk) Hnext. unfold settles, hbind. rewrite Hc.
  destruct r as [a|e].
  - destruct (Hnext a h' Hc Hk) as (r2 & h2 & -> & Hk2).
    exists r2, h2. split; [reflexivity | by eapply flagsKept_trans].
  - exists (Throw e), h'. done.
Qed.

Lemma settles_withParser {A} (c : Js JavascriptParser A) h :
  settles (withParser c) h.
Proof.
  unfold settles, withParser. destruct (c (parser h)) as [r p].
  eexists _, _. split; [reflexivity|]. split; done.
Qed.

Lemma withParser_flags {A} (c : Js JavascriptParser A) h r h' :
  withParser c h = Some (r, h') →
  recurse h' = recurse h ∧ recurseTypeof h' = recurseTypeof h.
Proof.
  unfold withParser. destruct (c (parser h)) as [r0 p]. by intros [= <- <-].
Qed.

Section HandlerFacts.
Variable rt : RuntimeTemplate.
Variable parse : string -> Evaluation.
Variable defines : list (string * CodeValue).

Lemma clearFlags_mono h h' :
  flagsKept h h' → (clearFlags defines h' ≤ clearFlags defines h)%nat.
Proof.
  intros [H1 H2]. unfold clearFlags.
  apply Nat.add_le_mono; apply subseteq_size; set_solver.
Qed.

Lemma size_difference_insert (U R : gset nat) i :
  i ∈ U → i ∉ R → (size (U ∖ ({[i]} ∪ R)) < size (U ∖ R))%nat.
Proof. intros Hi Hn. apply subset_size. set_solver. Qed.

Lemma clearFlags_setRecurse h i :
  (i < length defines)%nat → i ∉ recurse h →
  (clearFlags defines (setRecurse ({[i]} ∪ recurse h) h) < clearFlags defines h)%nat.
Proof.
  intros Hi Hn. unfold clearFlags. simpl.
  apply Nat.add_lt_mono_r, size_difference_insert; [|done].
  apply elem_of_set_seq. lia.
Qed.

Lemma clearFlags_setRecurseTypeof h i :
  (i < length defines)%nat → i ∉ recurseTypeof h →
  (clearFlags defines (setRecurseTypeof ({[i]} ∪ recurseTypeof h) h)
     < clearFlags defines h)%nat.
Proof.
  intros Hi Hn. unfold clearFlags. simpl.
  apply Nat.add_lt_mono_l, size_difference_insert; [|done].
  apply elem_of_set_seq. lia.
Qed.

Lemma clearFlags_bound h : (clearFlags defines h ≤ 2 * length defines)%nat.
Proof.
  unfold clearFlags.
  assert (Hs : ∀ R : gset nat,
            (size (set_seq 0 (length defines) ∖ R) ≤ length defines)%nat).
  { intros R. rewrite <- (size_set_seq (C := gset nat) 0 (length defines)) at 2.
    apply subseteq_size. set_solver. }
  pose proof (Hs (recurse h)). pose proof (Hs (recurseTypeof h)). lia.
Qed.

Lemma settles_hookCallback {R} key
    (callback : Expression -> Hook (option (string * R))) expr module h :
  settles (callback expr) h →
  settles (hookCallback key callback expr module) h.
Proof.
  intros Hc. unfold hookCallback. apply settles_hbind; [exact Hc|].
  intros [[strCode result]|] h' _ _; [|apply settles_hret].
  destruct module as [m|]; eexists _, _; (split; [reflexivity|]);
    split; done.
Qed.

Section Depth.
Variable evaluate : string -> Hook BasicEvaluatedExpression.
Variable depth : nat.
Hypothesis evaluate_settles :
  ∀ source h, (clearFlags defines h < depth)%nat → settles (evaluate source) h.

Lemma settles_evaluateIdentifierCallback i code expr h :
  (i < length defines)%nat → (clearFlags defines h ≤ depth)%nat →
  settles (evaluateIdentifierCallback rt evaluate i code expr) h.
Proof.
  intros Hi Hd. unfold settles, evaluateIdentifierCallback.
  destruct (decide (i ∈ recurse h)) as [Hin|Hnin].
  { eexists _, _. split; [reflexivity | apply flagsKept_refl]. }
  pose proof (clearFlags_setRecurse h i Hi Hnin) as Hlt.
  set (h1 := setRecurse ({[i]} ∪ recurse h) h) in *.
  unfold hbind.
  destruct (withParser (toCode rt code AsiNull) h1) as [[[strCode|e] h2]|] eqn:Hw;
    [| |by unfold withParser in Hw; destruct (toCode _ _ _ _)].
  - destruct (withParser_flags _ _ _ _ Hw) as [Hr2 Ht2].
    assert (Hk12 : flagsKept h1 h2) by (split; [by rewrite Hr2 | by rewrite Ht2]).
    destruct (evaluate_settles strCode h2) as (r & h3 & -> & [Hr3 Ht3]).
    { pose proof (clearFlags_mono _ _ Hk12). lia. }
    destruct r as [res|e].
    + eexists _, _. split; [reflexivity|]. split; simpl.
      * rewrite Hr2 in Hr3. subst h1. simpl in Hr3. set_solver.
      * rewrite Ht2 in Ht3. subst h1. simpl in Ht3. done.
    + eexists _, _. split; [reflexivity|]. split.
      * rewrite Hr2 in Hr3. subst h1. simpl in Hr3. set_solver.
      * rewrite Ht2 in Ht3. subst h1. simpl in Ht3. done.
  - destruct (withParser_flags _ _ _ _ Hw) as [Hr2 Ht2].
    eexists _, _. split; [reflexivity|]. split.
    + rewrite Hr2. subst h1. simpl. set_solver.
    + rewrite Ht2. subst h1. simpl. done.
Qed.

Lemma settles_evaluateTypeofCallback i key code expr h :
  (i < length defines)%nat → (clearFlags defines h ≤ depth)%nat →
  settles (evaluateTypeofCallback rt evaluate i key code expr) h.
Proof.
  intros Hi Hd. unfold settles, evaluateTypeofCallback.
  destruct (decide (i ∈ recurseTypeof h)) as [Hin|Hnin].
  { eexists _, _. split; [reflexivity | apply flagsKept_refl]. }
  pose proof (clearFlags_setRecurseTypeof h i Hi Hnin) as Hlt.
  set (h1 := setRecurseTypeof ({[i]} ∪ recurseTypeof h) h) in *.
  unfold hbind.
  destruct (withParser (toCode rt code AsiNull) h1) as [[[strCode|e] h2]|] eqn:Hw;
    [| |by unfold withParser in Hw; destruct (toCode _ _ _ _)].
  - destruct (withParser_flags _ _ _ _ Hw) as [Hr2 Ht2].
    assert (Hk12 : flagsKept h1 h2) by (split; [by rewrite Hr2 | by rewrite Ht2]).
    destruct (evaluate_settles (typeofCodeOf key strCode) h2)
      as (r & h3 & -> & [Hr3 Ht3]).
    { pose proof (clearFlags_mono _ _ Hk12). lia. }
    destruct r as [res|e].
    + eexists _, _. split; [reflexivity|]. split; simpl.
      * rewrite Hr2 in Hr3. subst h1. simpl in Hr3. done.
      * rewrite Ht2 in Ht3. subst h1. simpl in Ht3. set_solver.
    + eexists _, _. split; [reflexivity|]. split.
      * rewrite Hr2 in Hr3. subst h1. simpl in Hr3. done.
      * rewrite Ht2 in Ht3. subst h1. simpl in Ht3. set_solver.
  - destruct (withParser_flags _ _ _ _ Hw) as [Hr2 Ht2].
    eexists _, _. split; [reflexivity|]. split.
    + rewrite Hr2. subst h1. simpl. done.
    + rewrite Ht2. subst h1. simpl. set_solver.
Qed.

Lemma settles_tapOf kind d expr module h :
  (fst d < length defines)%nat → (clearFlags defines h ≤ depth)%nat →
  settles (tapOf rt evaluate kind d expr module) h.
Proof.
  intros Hi Hd. destruct kind; simpl;
    unfold evaluateIdentifierTap, evaluateTypeofTap;
    apply settles_hookCallback;
    [by apply settles_evaluateIdentifierCallback
    |by apply settles_evaluateTypeofCallback].
Qed.

Lemma settles_callTaps kind taps :
  Forall (fun d => (fst d < length defines)%nat) taps →
  ∀ expr h, (clearFlags defines h ≤ depth)%nat →
            settles (callTaps rt evaluate kind taps expr) h.
Proof.
  induction 1 as [|d taps Hd _ IH]; intros expr h Hc; simpl.
  - apply settles_hret.
  - apply settles_hbind.
    + by apply settles_tapOf.
    + intros [res|] h' _ Hk; [apply settles_hret|].
      apply IH. pose proof (clearFlags_mono _ _ Hk). lia.
Qed.

Lemma tapsFor_index kind name :
  Forall (fun d => (fst d < length defines)%nat) (tapsFor defines kind name).
Proof.
  apply Forall_forall. intros d Hin. unfold tapsFor in Hin.
  apply list_elem_of_In, filter_In in Hin as [Hin _].
  apply list_elem_of_In, elem_of_lookup_imap in Hin as (i & x & -> & Hl).
  simpl. by eapply lookup_lt_Some.
Qed.

Lemma settles_callHook kind name expr h :
  (clearFlags defines h ≤ depth)%nat →
  settles (callHook rt defines evaluate kind name expr) h.
Proof. apply settles_callTaps, tapsFor_index. Qed.

Lemma settles_interpret t :
  ∀ h, (clearFlags defines h ≤ depth)%nat →
       settles (interpret rt defines evaluate t) h.
Proof.
  induction t as [res|e|name expr k IH|name expr k IH]; intros h Hc.
  - apply settles_hret.
  - eexists _, _. split; [reflexivity | apply flagsKept_refl].
  - destruct (settles_callHook EvaluateIdentifier name expr h Hc)
      as (r & h' & Hcall & Hk).
    destruct (IH r h') as (r2 & h2 & Hrest & Hk2).
    { pose proof (clearFlags_mono _ _ Hk). lia. }
    exists r2, h2. split; [|by eapply flagsKept_trans].
    simpl. by rewrite Hcall.
  - destruct (settles_callHook EvaluateTypeof name expr h Hc)
      as (r & h' & Hcall & Hk).
    destruct (IH r h') as (r2 & h2 & Hrest & Hk2).
    { pose proof (clearFlags_mono _ _ Hk). lia. }
    exists r2, h2. split; [|by eapply flagsKept_trans].
    simpl. by rewrite Hcall.
Qed.
End Depth.

(** [parser.evaluate] returns or throws when the depth allowed to it is
    above the number of variables that are still [false]. *)
Lemma evaluate_settles depth :
  ∀ source h, (clearFlags defines h < depth)%nat →
              settles (evaluate rt parse defines depth source) h.
Proof.
  induction depth as [|depth IH]; intros source h Hc; [lia|].
  simpl. apply (settles_interpret _ depth IH). lia.
Qed.

Lemma fire_settles depth kind name expr h :
  (clearFlags defines h ≤ depth)%nat →
  settles (callHook rt defines (evaluate rt parse defines depth) kind name expr) h.
Proof. apply settles_callHook, evaluate_settles. Qed.
End HandlerFacts.

Lemma hookCallback_no_result {R} key
    (callback : Expression -> Hook (option (string * R))) expr module h h' :
  hookCallback key callback expr module h = Some (Normal None, h') ↔
  callback expr h = Some (Normal None, h').
Proof.
  unfold hookCallback, hbind.
  destruct (callback expr h) as [[[[[strCode result]|]|e] h1]|]; simpl.
  - destruct module; split; discriminate.
  - unfold hret. split; intros [= <-]; reflexivity.
  - split; discriminate.
  - split; discriminate.
Qed.

Lemma evaluateIdentifierCallback_no_result rt evaluate i code expr h h' :
  evaluateIdentifierCallback rt evaluate i code expr h = Some (Normal None, h') ↔
  i ∈ recurse h ∧ h' = h.
Proof.
  unfold evaluateIdentifierCallback.
  destruct (decide (i ∈ recurse h)) as [Hin|Hnin].
  - split; [by intros [= <-] | by intros [_ ->]].
  - split; [|by intros [? _]]. unfold hbind.
    destruct (withParser _ _) as [[[strCode|e] h2]|]; [|discriminate..].
    destruct (evaluate strCode h2) as [[[res|e] h3]|]; discriminate.
Qed.

Lemma evaluateTypeofCallback_no_result rt evaluate i key code expr h h' :
  evaluateTypeofCallback rt evaluate i key code expr h = Some (Normal None, h') ↔
  i ∈ recurseTypeof h ∧ h' = h.
Proof.
  unfold evaluateTypeofCallback.
  destruct (decide (i ∈ recurseTypeof h)) as [Hin|Hnin].
  - split; [by intros [= <-] | by intros [_ ->]].
  - split; [|by intros [? _]]. unfold hbind.
    destruct (withParser _ _) as [[[strCode|e] h2]|]; [|discriminate..].
    destruct (evaluate _ h2) as [[[res|e] h3]|]; discriminate.
Qed.

Lemma typeofCallback_no_result rt evaluate key code expr h h' :
  typeofCallback rt evaluate key code expr h = Some (Normal None, h') →
  ∃ strCode h1 res,
    withParser (toCode rt code AsiNull) h = Some (Normal strCode, h1) ∧
    handlerGlobals h1 = handlerGlobals h ∧
    evaluate (typeofCodeOf key strCode) h1 = Some (Normal res, h') ∧
    evaluatedString res = None.
Proof.
  unfold typeofCallback, hbind.
  destruct (withParser (toCode rt code AsiNull) h) as [[[strCode|e] h1]|] eqn:Hw;
    [|discriminate..].
  destruct (evaluate (typeofCodeOf key strCode) h1) as [[[res|e] h2]|] eqn:He;
    [|discriminate..].
  destruct (evaluatedString res) as [s|] eqn:Hs.
  - unfold toConstantDependency, hret. discriminate.
  - unfold hret. intros [= <-]. exists strCode, h1, res.
    repeat split; try done.
    unfold withParser in Hw. destruct (toCode rt code AsiNull (parser h)).
    by injection Hw as _ <-.
Qed.

(** C7: a tap of [evaluateIdentifier] (of [evaluateTypeof]) returns no
    result exactly when the [recurse] (the [recurseTypeof]) variable of its
    [applyDefine] call is [true], whatever the other variable is, and it
    then leaves everything as it is; [hookCallback] returns no result
    exactly when its callback does, and then adds nothing to what the
    callback left.  A [typeof] tap without a result has called
    [parser.evaluate], from the state it was called in, and leaves the
    state [parser.evaluate] left: what the taps of other definitions
    recorded during that evaluation stays recorded.  With these guards a
    hook called for any name, in any state, returns or throws whatever the
    definitions and the parser are: the calls of [parser.evaluate] nested
    in one another never number more than the variables there are. *)
Theorem recursion_guard rt parse defines :
  (∀ evaluate i key code expr module h h',
     evaluateIdentifierTap rt evaluate i key code expr module h = Some (Normal None, h') ↔
     i ∈ recurse h ∧ h' = h) ∧
  (∀ evaluate i key code expr module h h',
     evaluateTypeofTap rt evaluate i key code expr module h = Some (Normal None, h') ↔
     i ∈ recurseTypeof h ∧ h' = h) ∧
  (∀ R key (callback : Expression -> Hook (option (string * R))) expr module h h',
     hookCallback key callback expr module h = Some (Normal None, h') ↔
     callback expr h = Some (Normal None, h')) ∧
  (∀ evaluate key code expr module h h',
     typeofTap rt evaluate key code expr module h = Some (Normal None, h') →
     ∃ strCode h1 res,
       withParser (toCode rt code AsiNull) h = Some (Normal strCode, h1) ∧
       handlerGlobals h1 = handlerGlobals h ∧
       evaluate (typeofCodeOf key strCode) h1 = Some (Normal res, h') ∧
       evaluatedString res = None) ∧
  (∀ depth name expr h,
     (2 * length defines ≤ depth)%nat →
     is_Some (fireEvaluateIdentifier rt parse defines depth name expr h) ∧
     is_Some (fireEvaluateTypeof rt parse defines depth name expr h)).
Proof.
  split; [|split; [|split; [|split]]].
  - intros. unfold evaluateIdentifierTap.
    by rewrite hookCallback_no_result, evaluateIdentifierCallback_no_result.
  - intros. unfold evaluateTypeofTap.
    by rewrite hookCallback_no_result, evaluateTypeofCallback_no_result.
  - intros. apply hookCallback_no_result.
  - intros evaluate key code expr module h h' Hno. unfold typeofTap in Hno.
    apply hookCallback_no_result in Hno. by apply typeofCallback_no_result in Hno.
  - intros depth name expr h Hd.
    pose proof (clearFlags_bound defines h) as Hb.
    split.
    + destruct (fire_settles rt parse defines depth EvaluateIdentifier name expr h)
        as (r & h' & Heq & _); [lia|].
      unfold fireEvaluateIdentifier. rewrite Heq. eauto.
    + destruct (fire_settles rt parse defines depth EvaluateTypeof name expr h)
        as (r & h' & Heq & _); [lia|].
      unfold fireEvaluateTypeof. rewrite Heq. eauto.
Qed.

(** [a: "b", b: "a"]: evaluating [a] evaluates [b], which asks for [a] again
    and gets no result; both uses are recorded, both variables are [false]
    again at the end. *)
Example mutual_definitions_evaluate :
  fireEvaluateIdentifier sampleTemplate sampleParse
    (walkDefinitions (VObject mutualDefinitions) "") 2 "a" sampleExpression
    sampleHandler =
    Some (Normal (Some {| evaluatedString := None; evaluatedRange := Some (0, 1) |}),
          setHandlerGlobals
            (recordSubstitution "a" "b" "/src/index.js"
               (recordSubstitution "b" "a" "/src/index.js" initialGlobals))
            sampleHandler).
Proof. vm_compute. reflexivity. Qed.

(** The [recurse] variable of a definition does not stop the
    [evaluateTypeof] tap of the same definition. *)
Example typeof_guard_is_separate :
  fst <$> fireEvaluateTypeof sampleTemplate sampleParse
            (walkDefinitions (VObject mutualDefinitions) "") 2 "a" sampleExpression
            (setRecurse {[0%nat]} sampleHandler) =
    Some (Normal (Some {| evaluatedString := None; evaluatedRange := Some (0, 1) |})).
Proof. vm_compute. reflexivity. Qed.

(** [a: "b", b: "c"]: the [typeof] tap of [a] evaluates [typeof (b)], for
    which the [evaluateTypeof] tap of [b] gives a result and records [b];
    the result is no string, so the [typeof] tap of [a] returns no result,
    and the use of [b] is in the state. *)
Lemma typeof_tap_without_result_records :
  let defines := walkDefinitions (VObject chainDefinitions) "" in
  let h' := setHandlerGlobals
              (recordSubstitution "b" "c" "/src/index.js" initialGlobals)
              sampleHandler in
  typeofTap sampleTemplate (evaluate sampleTemplate sampleParse defines 2)
    "a" (VString "b") sampleExpression (Some sampleModule) sampleHandler =
    Some (Normal None, h') ∧
  values (runState (handlerGlobals sampleHandler)) !! "b" = None ∧
  values (runState (handlerGlobals h')) !! "b" = Some "c" ∧
  modulesUsingKey (runState (handlerGlobals h')) !! "b" = Some ["/src/index.js"].
Proof. vm_compute. done. Qed.

(** * Further properties *)

(** ** The serialiser and the parser *)

Lemma mapJs_pure {St A B} (f : A -> Js St B) (l : list A) :
  Forall (fun a => ∃ b, ∀ s, f a s = (Normal b, s)) l →
  ∃ bs, ∀ s, mapJs f l s = (Normal bs, s).
Proof.
  induction 1 as [|a l [b Hb] _ [bs Hbs]].
  - exists []. reflexivity.
  - exists (b :: bs). intros s. simpl. unfold bind. rewrite Hb, Hbs. reflexivity.
Qed.

Lemma toCode_runtimeFree rt v :
  runtimeFree v = true →
  ∀ asiSafe, ∃ text, ∀ parser, toCode rt v asiSafe parser = (Normal text, parser).
Proof.
  induction v as [| | | | | | | | | |items IH|props IH] using CodeValue_nested_ind;
    intros Hfree asiSafe; try discriminate; try (eexists; intros; reflexivity).
  - simpl in Hfree. rewrite forallb_forall in Hfree.
    destruct (mapJs_pure (fun c => toCode rt c AsiNull) items) as [codes Hcodes].
    { rewrite Forall_forall in IH. apply Forall_forall. intros c Hin.
      apply IH; [done|]. apply Hfree. by apply list_elem_of_In. }
    eexists. intros parser. simpl. unfold bind. rewrite Hcodes. reflexivity.
  - simpl in Hfree. rewrite forallb_forall in Hfree.
    destruct (mapJs_pure
                (fun kv => let! c := toCode rt (snd kv) AsiNull in
                           ret (JSON_stringify (fst kv) +:+ ":" +:+ c)) props)
      as [codes Hcodes].
    { rewrite Forall_forall in IH. apply Forall_forall. intros kv Hin.
      destruct (IH kv Hin) with (asiSafe := AsiNull) as [text Htext].
      { apply Hfree. by apply list_elem_of_In. }
      eexists. intros s. unfold bind. rewrite Htext. reflexivity. }
    eexists. intros parser. simpl. unfold bind. rewrite Hcodes. reflexivity.
Qed.

(** X1: a value without runtime values is serialised without an exception
    and without a write to the parser, and to a text that does not depend on
    the parser. *)
Theorem toCode_without_runtime_values rt v asiSafe :
  runtimeFree v = true →
  ∃ text, ∀ parser, toCode rt v asiSafe parser = (Normal text, parser).
Proof. intros Hfree. by apply toCode_runtimeFree. Qed.

Lemma toCode_without_runtime_values_witness :
  ∃ text, ∀ parser,
    toCode sampleTemplate (VObject sampleDefinitions) AsiTrue parser =
      (Normal text, parser).
Proof.
  apply (toCode_without_runtime_values sampleTemplate (VObject sampleDefinitions) AsiTrue).
  reflexivity.
Defined.

Lemma mapJs_fixed {St A B} (f : A -> Js St B) (ok : A -> bool) (s : St) (l : list A) :
  Forall (fun a => (ok a = true ∧ ∃ b, f a s = (Normal b, s)) ∨
                   (ok a = false ∧ ∃ e, f a s = (Throw e, s))) l →
  (forallb ok l = true ∧ ∃ bs, mapJs f l s = (Normal bs, s)) ∨
  (forallb ok l = false ∧ ∃ e, mapJs f l s = (Throw e, s)).
Proof.
  induction 1 as [|a l Ha _ IH].
  - left. split; [reflexivity | eexists; reflexivity].
  - simpl. unfold bind.
    destruct Ha as [[-> [b ->]]|[-> [e ->]]].
    + destruct IH as [[-> [bs ->]]|[-> [e ->]]].
      * left. split; [reflexivity | eexists; reflexivity].
      * right. split; [reflexivity | eexists; reflexivity].
    + right. split; [reflexivity | eexists; reflexivity].
Qed.

Lemma toCode_idle rt v :
  ∀ asiSafe,
    (runtimeFree v = true ∧
     ∃ text, toCode rt v asiSafe idleParser = (Normal text, idleParser)) ∨
    (runtimeFree v = false ∧
     ∃ e, toCode rt v asiSafe idleParser = (Throw e, idleParser)).
Proof.
  induction v as [| | | | | | | | |fn deps _|items IH|props IH]
    using CodeValue_nested_ind; intros asiSafe;
    try (left; split; [reflexivity | eexists; reflexivity]).
  - right. split; [reflexivity | eexists; reflexivity].
  - destruct (mapJs_fixed (fun c => toCode rt c AsiNull) runtimeFree idleParser items)
      as [[Hb [codes Hm]]|[Hb [e Hm]]].
    { eapply Forall_impl; [exact IH|]. intros c Hc. apply Hc. }
    + left. split; [exact Hb|]. eexists. simpl. unfold bind. rewrite Hm. reflexivity.
    + right. split; [exact Hb|]. eexists. simpl. unfold bind. rewrite Hm. reflexivity.
  - destruct (mapJs_fixed
                (fun kv => let! c := toCode rt (snd kv) AsiNull in
                           ret (JSON_stringify (fst kv) +:+ ":" +:+ c))
                (fun kv => runtimeFree (snd kv)) idleParser props)
      as [[Hb [codes Hm]]|[Hb [e Hm]]].
    { eapply Forall_impl; [exact IH|]. intros kv Hc. unfold bind.
      destruct (Hc AsiNull) as [[-> [text ->]]|[-> [e ->]]].
      - left. split; [reflexivity | eexists; reflexivity].
      - right. split; [reflexivity | eexists; reflexivity]. }
    + left. split; [exact Hb|]. eexists.
      rewrite toCode_VObject, stringifyObj_elementCodes. unfold elementCodes.
      rewrite Hm. reflexivity.
    + right. split; [exact Hb|]. eexists.
      rewrite toCode_VObject, stringifyObj_elementCodes. unfold elementCodes.
      rewrite Hm. reflexivity.
Qed.

(** X2: given a parser that is not parsing a module, [toCode] leaves the
    parser as it is, and it returns a text exactly when the value holds no
    runtime value; otherwise it throws. *)
Theorem toCode_without_module rt v asiSafe :
  snd (toCode rt v asiSafe idleParser) = idleParser ∧
  ((∃ text, fst (toCode rt v asiSafe idleParser) = Normal text) ↔
   runtimeFree v = true).
Proof.
  destruct (toCode_idle rt v asiSafe) as [[Hfree [text ->]]|[Hfree [e ->]]];
    simpl; split; try reflexivity.
  - split; [done | eauto].
  - rewrite Hfree. split; [by intros [text [=]] | done].
Qed.

Lemma buildInfoGrows_refl m : buildInfoGrows m m.
Proof. repeat split; done. Qed.

Lemma buildInfoGrows_trans m1 m2 m3 :
  buildInfoGrows m1 m2 → buildInfoGrows m2 m3 → buildInfoGrows m1 m3.
Proof.
  intros (Hr1 & Hd1 & Hc1) (Hr2 & Hd2 & Hc2). split; [congruence|].
  split; [set_solver | auto].
Qed.

Lemma execModule_grows deps m :
  ∃ m', execModule deps (parserOf m) = (Normal m', parserOf m') ∧ buildInfoGrows m m'.
Proof.
  eexists. split; [reflexivity|]. split; [reflexivity|].
  destruct deps as [|paths]; simpl; split; try done. set_solver.
Qed.

Lemma mapJs_grows {A B} (f : A -> Js JavascriptParser B) (l : list A) :
  Forall (fun a => ∀ m, ∃ m', snd (f a (parserOf m)) = parserOf m' ∧
                              buildInfoGrows m m') l →
  ∀ m, ∃ m', snd (mapJs f l (parserOf m)) = parserOf m' ∧ buildInfoGrows m m'.
Proof.
  induction 1 as [|a l Ha _ IH]; intros m.
  - exists m. split; [reflexivity | apply buildInfoGrows_refl].
  - simpl. unfold bind. destruct (Ha m) as (m1 & Hs1 & Hg1).
    destruct (f a (parserOf m)) as [[b|e] p1]; simpl in Hs1; subst p1.
    + destruct (IH m1) as (m2 & Hs2 & Hg2).
      destruct (mapJs f l (parserOf m1)) as [[bs|e] p2]; simpl in Hs2; subst p2;
        exists m2; (split; [reflexivity | by eapply buildInfoGrows_trans]).
    + by exists m1.
Qed.

Lemma toCode_grows rt v :
  ∀ asiSafe m, ∃ m', snd (toCode rt v asiSafe (parserOf m)) = parserOf m' ∧
                     buildInfoGrows m m'.
Proof.
  induction v as [| | | | | | | | |fn deps IH|items IH|props IH]
    using CodeValue_nested_ind; intros asiSafe m;
    try (exists m; split; [reflexivity | apply buildInfoGrows_refl]).
  - destruct (execModule_grows deps m) as (m1 & He & Hg1).
    destruct (IH m1 asiSafe m1) as (m2 & Hs & Hg2).
    exists m2. split; [|by eapply buildInfoGrows_trans].
    simpl. unfold bind. by rewrite He.
  - destruct (mapJs_grows (fun c => toCode rt c AsiNull) items) with (m := m)
      as (m1 & Hs & Hg).
    { eapply Forall_impl; [exact IH|]. intros c Hc. apply Hc. }
    exists m1. split; [|exact Hg].
    rewrite toCode_VArray, stringifyObj_elementCodes. unfold elementCodes.
    by destruct (mapJs _ items (parserOf m)) as [[codes|e] p].
  - destruct (mapJs_grows
                (fun kv => let! c := toCode rt (snd kv) AsiNull in
                           ret (JSON_stringify (fst kv) +:+ ":" +:+ c)) props)
      with (m := m) as (m1 & Hs & Hg).
    { eapply Forall_impl; [exact IH|]. intros kv Hc m0. unfold bind.
      destruct (Hc AsiNull m0) as (m1 & Hs & Hg). exists m1. split; [|exact Hg].
      by destruct (toCode rt (snd kv) AsiNull (parserOf m0)) as [[c|e] p]. }
    exists m1. split; [|exact Hg].
    rewrite toCode_VObject, stringifyObj_elementCodes. unfold elementCodes.
    by destruct (mapJs _ props (parserOf m)) as [[codes|e] p].
Qed.

(** X3: whatever the value, what [toCode] leaves of the module being
    parsed has the request it had and every file dependency it had, and a
    module that was not cacheable is not cacheable afterwards. *)
Theorem toCode_keeps_build_info rt v asiSafe m :
  ∃ m', snd (toCode rt v asiSafe (parserOf m)) = parserOf m' ∧
        request m' = request m ∧
        fileDependencies (buildInfo m) ⊆ fileDependencies (buildInfo m') ∧
        (cacheable (buildInfo m) = false → cacheable (buildInfo m') = false).
Proof. apply toCode_grows. Qed.

(** ** What the reconciliation pass visits *)

Lemma elem_of_visits_VObject x props prefix :
  x ∈ visits (VObject props) prefix ↔
  ∃ k v, (k, v) ∈ props ∧ metIn x (fullKeyOf prefix k) v.
Proof.
  simpl. induction props as [|[k0 v0] props IH]; simpl.
  - split; [by intros ?%elem_of_nil | by intros (k & v & ?%elem_of_nil & _)].
  - rewrite elem_of_app, IH. unfold metIn. split.
    + intros [Hx|(k & v & Hin & Hm)].
      * exists k0, v0. split; [by left|].
        destruct (isNested v0); [by left | right].
        split; [done|]. by apply list_elem_of_singleton in Hx.
      * exists k, v. split; [by right | done].
    + intros (k & v & Hin & Hm). apply elem_of_cons in Hin as [[= -> ->]|Hin].
      * left. destruct Hm as [[-> Hx]|[-> ->]]; [done|].
        by apply list_elem_of_singleton.
      * right. eauto.
Qed.

Lemma elem_of_visits_VArray x items prefix :
  x ∈ visits (VArray items) prefix ↔
  ∃ i v, items !! i = Some v ∧ metIn x (fullKeyOf prefix (pretty i)) v.
Proof.
  simpl.
  assert (H : ∀ n,
    x ∈ (fix each (i : nat) (l : list CodeValue) : list Visit :=
           match l with
           | [] => []
           | v :: l' =>
               (if isNested v then visits v (fullKeyOf prefix (pretty i))
                else [VisitLeaf (fullKeyOf prefix (pretty i)) v]) ++ each (S i) l'
           end) n items ↔
    ∃ i v, items !! i = Some v ∧ metIn x (fullKeyOf prefix (pretty (n + i)%nat)) v).
  { induction items as [|v0 items IH]; intros n.
    - split; [by intros ?%elem_of_nil | by intros (i & v & [=] & _)].
    - rewrite elem_of_app, IH. unfold metIn. split.
      + intros [Hx|(i & v & Hl & Hm)].
        * exists 0%nat, v0. rewrite Nat.add_0_r. split; [done|].
          destruct (isNested v0); [by left | right].
          split; [done|]. by apply list_elem_of_singleton in Hx.
        * exists (S i), v. split; [done|]. by rewrite Nat.add_succ_r.
      + intros ([|i] & v & Hl & Hm).
        * injection Hl as ->. rewrite Nat.add_0_r in Hm. left.
          destruct Hm as [[-> Hx]|[-> ->]]; [done|]. by apply list_elem_of_singleton.
        * right. exists i, v. split; [done|]. by rewrite Nat.add_succ_r in Hm. }
  apply (H 0%nat).
Qed.

Lemma visits_leaf v prefix :
  isNested v = false → visits v prefix = [].
Proof. by destruct v. Qed.

(** Every leaf met is a value [run] does not go into. *)
Lemma visits_leaf_not_nested obj :
  ∀ prefix k c, VisitLeaf k c ∈ visits obj prefix → isNested c = false.
Proof.
  induction obj as [| | | | | | | | | |items IH|props IH] using CodeValue_nested_ind;
    intros prefix k c Hin; try by apply elem_of_nil in Hin.
  - by apply list_elem_of_singleton in Hin.
  - apply elem_of_visits_VArray in Hin as (i & v & Hl & [[_ Hin]|[Hn [= -> ->]]]);
      [|done].
    rewrite Forall_forall in IH. eapply IH; [|exact Hin].
    by eapply list_elem_of_lookup_2.
  - apply elem_of_visits_VObject in Hin as (k0 & v & Hl & [[_ Hin]|[Hn [= -> ->]]]);
      [|done].
    rewrite Forall_forall in IH. eapply (IH (k0, v)); [done | exact Hin].
Qed.

(** [run] is handed [null] exactly when there is a [null] in the tree. *)
Lemma visits_null obj :
  ∀ prefix,
    (nullFree obj = true → VisitNull ∉ visits obj prefix) ∧
    (nullFree obj = false → VisitNull ∈ visits obj prefix).
Proof.
  induction obj as [| | | | | | | | | |items IH|props IH] using CodeValue_nested_ind;
    intros prefix; try (split; [intros _; apply not_elem_of_nil | done]).
  - split; [done|]. intros _. by apply list_elem_of_singleton.
  - rewrite elem_of_visits_VArray. simpl. rewrite Forall_forall in IH. split.
    + rewrite forallb_forall.
      intros Hall (i & v & Hl & [[_ Hin]|[_ [=]]]).
      apply list_elem_of_lookup_2 in Hl.
      eapply IH; [exact Hl| |exact Hin]. apply Hall. by apply list_elem_of_In.
    + intros Hex. apply not_true_iff_false in Hex.
      assert (Hv : ∃ v, v ∈ items ∧ nullFree v = false).
      { clear IH. induction items as [|v items IHi]; [done|]. simpl in Hex.
        destruct (nullFree v) eqn:Hf.
        - destruct IHi as (v' & Hin & Hf'); [done|]. exists v'. split; [by right|done].
        - exists v. split; [by left | done]. }
      destruct Hv as (v & Hin & Hf).
      destruct (list_elem_of_lookup_1 _ _ Hin) as [i Hl].
      exists i, v. split; [done|]. left.
      destruct (IH v Hin (fullKeyOf prefix (pretty i))) as [_ Hnn]. specialize (Hnn Hf).
      split; [|done]. destruct (isNested v) eqn:Hnv; [done|].
      rewrite visits_leaf in Hnn by done. by apply elem_of_nil in Hnn.
  - rewrite elem_of_visits_VObject. simpl. rewrite Forall_forall in IH. split.
    + rewrite forallb_forall.
      intros Hall (k & v & Hl & [[_ Hin]|[_ [=]]]).
      eapply (IH (k, v)); [exact Hl| |exact Hin].
      apply (Hall (k, v)). by apply list_elem_of_In.
    + intros Hex. apply not_true_iff_false in Hex.
      assert (Hv : ∃ kv, kv ∈ props ∧ nullFree (snd kv) = false).
      { clear IH. induction props as [|kv props IHi]; [done|]. simpl in Hex.
        destruct (nullFree (snd kv)) eqn:Hf.
        - destruct IHi as (v' & Hin & Hf'); [done|]. exists v'. split; [by right|done].
        - exists kv. split; [by left | done]. }
      destruct Hv as ([k v] & Hin & Hf). simpl in Hf.
      exists k, v. split; [done|]. left.
      destruct (IH (k, v) Hin (fullKeyOf prefix k)) as [_ Hnn]. specialize (Hnn Hf).
      split; [|done]. destruct (isNested v) eqn:Hnv; [done|].
      rewrite visits_leaf in Hnn by done. by apply elem_of_nil in Hnn.
Qed.

Lemma visits_runtimeFree obj :
  runtimeFree obj = true →
  ∀ prefix k c, VisitLeaf k c ∈ visits obj prefix → runtimeFree c = true.
Proof.
  induction obj as [| | | | | | | | | |items IH|props IH] using CodeValue_nested_ind;
    intros Hfree prefix k c Hin; try by apply elem_of_nil in Hin.
  - by apply list_elem_of_singleton in Hin.
  - simpl in Hfree. rewrite forallb_forall in Hfree. rewrite Forall_forall in IH.
    apply elem_of_visits_VArray in Hin as (i & v & Hl & Hm).
    apply list_elem_of_lookup_2 in Hl.
    assert (Hv : runtimeFree v = true) by (apply Hfree; by apply list_elem_of_In).
    destruct Hm as [[_ Hin]|[_ [= -> ->]]]; [|done]. by eapply IH.
  - simpl in Hfree. rewrite forallb_forall in Hfree. rewrite Forall_forall in IH.
    apply elem_of_visits_VObject in Hin as (k0 & v & Hl & Hm).
    assert (Hv : runtimeFree v = true) by (apply (Hfree (k0, v)); by apply list_elem_of_In).
    destruct Hm as [[_ Hin]|[_ [= -> ->]]]; [|done]. by eapply (IH (k0, v)).
Qed.

Lemma runtimeFree_visits obj :
  isNested obj = true →
  ∀ prefix, (∀ k c, VisitLeaf k c ∈ visits obj prefix → runtimeFree c = true) →
            runtimeFree obj = true.
Proof.
  induction obj as [| | | | | | | | | |items IH|props IH] using CodeValue_nested_ind;
    intros Hn prefix Hleaves; try discriminate; [done| |].
  - simpl. apply forallb_forall. intros v Hv%list_elem_of_In.
    rewrite Forall_forall in IH.
    destruct (list_elem_of_lookup_1 _ _ Hv) as [i Hl].
    destruct (isNested v) eqn:Hnv.
    + apply (IH v Hv Hnv (fullKeyOf prefix (pretty i))). intros k c Hin.
      apply (Hleaves k). apply elem_of_visits_VArray. exists i, v.
      split; [done|]. by left.
    + apply (Hleaves (fullKeyOf prefix (pretty i))). apply elem_of_visits_VArray.
      exists i, v. split; [done|]. by right.
  - simpl. apply forallb_forall. intros [k0 v] Hv%list_elem_of_In. simpl.
    rewrite Forall_forall in IH.
    destruct (isNested v) eqn:Hnv.
    + apply (IH (k0, v) Hv Hnv (fullKeyOf prefix k0)). intros k c Hin.
      apply (Hleaves k). apply elem_of_visits_VObject. exists k0, v.
      split; [done|]. by left.
    + apply (Hleaves (fullKeyOf prefix k0)). apply elem_of_visits_VObject.
      exists k0, v. split; [done|]. by right.
Qed.

(** ** When the reconciliation pass runs to its end *)

Section CompletionFacts.
Variable rt : RuntimeTemplate.
Variable newParser : JavascriptParser.
Variable cache : DefineState.

Lemma runLeaf_completes k c inv :
  fst (runLeaf rt newParser cache k c inv) = Normal tt ↔
  ∃ codeStr, recompute rt newParser c = Normal codeStr ∧
             (textChanged cache k codeStr → is_Some (modulesUsingKey cache !! k)).
Proof.
  unfold runLeaf. destruct (recompute rt newParser c) as [codeStr|e] eqn:Hr.
  - destruct (textChanged_dec cache k codeStr) as [Hc|Hc].
    + rewrite (compareKey_changed _ _ _ _ Hc).
      destruct (modulesUsingKey cache !! k) as [users|] eqn:Hu; simpl.
      * split; [|done]. intros _. exists codeStr. split; [done|]. intros _. eauto.
      * split; [done|]. intros (s & [= <-] & Hsome). by destruct (Hsome Hc) as [? [=]].
    + rewrite (compareKey_unchanged _ _ _ _ Hc). simpl. split; [|done].
      intros _. exists codeStr. split; [done|]. by intros ?.
  - simpl. split; [done|]. by intros (s & [=] & _).
Qed.

Lemma forEachJs_visitStep_completes vs :
  ∀ inv,
    fst (forEachJs (visitStep rt newParser cache) vs inv) = Normal tt ↔
    Forall (fun x => ∃ k c, x = VisitLeaf k c ∧
                            ∀ inv', fst (runLeaf rt newParser cache k c inv') = Normal tt)
           vs.
Proof.
  induction vs as [|x vs IH]; intros inv; simpl.
  - split; [constructor | done].
  - unfold bind. rewrite Forall_cons.
    destruct x as [k c|]; simpl.
    + destruct (runLeaf rt newParser cache k c inv) as [[[]|e] inv1] eqn:Hstep.
      * rewrite IH. split.
        -- intros Hall. split; [|done]. exists k, c. split; [done|]. intros inv'.
           apply runLeaf_completes. apply (runLeaf_completes k c inv).
           by rewrite Hstep.
        -- by intros [_ Hall].
      * simpl. split; [done|]. intros [(k' & c' & [= <- <-] & Hok) _].
        specialize (Hok inv). by rewrite Hstep in Hok.
    + split; [done|]. by intros [(k & c & [=] & _) _].
Qed.
End CompletionFacts.

Lemma forEachJs_ext {St A} (f g : A -> Js St unit) (l : list A) :
  (∀ a, a ∈ l → ∀ s, f a s = g a s) → ∀ s, forEachJs f l s = forEachJs g l s.
Proof.
  induction l as [|a l IH]; intros Hfg s; [reflexivity|].
  simpl. unfold bind. rewrite (Hfg a) by by left.
  destruct (g a s) as [[u|e] s']; [|reflexivity].
  apply IH. intros a' Hin. apply Hfg. by right.
Qed.

(** X4: when the definitions hold no [null] and no runtime value, no full
    key of theirs is a name inherited from [Object.prototype], and the
    stored state has users for every key it has a text for, the pass runs to
    its end, whatever the parser is. *)
Theorem run_completes rt newParser cache defs inv :
  nullFree (VObject defs) = true →
  runtimeFree (VObject defs) = true →
  Forall (fun leaf => inheritedName (fst leaf) = false) (leaves defs) →
  (∀ k, is_Some (values cache !! k) → is_Some (modulesUsingKey cache !! k)) →
  ∃ inv', runDefinitions rt newParser cache defs inv = (Normal tt, inv').
Proof.
  intros Hnull Hfree _ Husers.
  assert (Hok : fst (runDefinitions rt newParser cache defs inv) = Normal tt).
  { unfold runDefinitions. rewrite run_visits.
    apply forEachJs_visitStep_completes. apply Forall_forall. intros x Hx.
    destruct x as [k c|].
    - exists k, c. split; [done|]. intros inv'. apply runLeaf_completes.
      destruct (toCode_runtimeFree rt c (visits_runtimeFree _ Hfree _ _ _ Hx) AsiNull)
        as [text Htext].
      exists text. split; [unfold recompute; by rewrite Htext|].
      intros (_ & stored & Hv & _). apply Husers. by rewrite Hv.
    - by apply (visits_null (VObject defs) "") in Hx. }
  destruct (runDefinitions rt newParser cache defs inv) as [r inv'].
  simpl in Hok. subst r. by exists inv'.
Qed.

Lemma run_completes_witness :
  ∃ inv', runDefinitions sampleTemplate idleParser sampleCache sampleDefinitions ∅ =
            (Normal tt, inv').
Proof.
  apply (run_completes sampleTemplate idleParser sampleCache sampleDefinitions ∅);
    [reflexivity | reflexivity | by repeat constructor |].
  intros k [s Hs].
  destruct (decide (k = "VERSION")) as [->|H1]; [by eexists|].
  destruct (decide (k = "FLAGS.debug")) as [->|H2]; [by eexists|].
  exfalso. unfold sampleCache in Hs. simpl in Hs.
  rewrite lookup_insert_ne, lookup_singleton_ne in Hs by done. discriminate.
Defined.

(** X5: a pass that runs to its end has met no [null] in the definitions,
    at any depth; and if the parser it makes is not parsing a module, it has
    met no runtime value either. *)
Theorem run_completes_only_if rt newParser cache defs inv inv' :
  runDefinitions rt newParser cache defs inv = (Normal tt, inv') →
  nullFree (VObject defs) = true ∧
  (state newParser = None → runtimeFree (VObject defs) = true).
Proof.
  intros Hrun.
  assert (Hok : fst (runDefinitions rt newParser cache defs inv) = Normal tt)
    by (by rewrite Hrun).
  unfold runDefinitions in Hok. rewrite run_visits in Hok.
  apply forEachJs_visitStep_completes in Hok. rewrite Forall_forall in Hok.
  split.
  - destruct (nullFree (VObject defs)) eqn:Hn; [done|].
    apply (visits_null (VObject defs) "") in Hn.
    by destruct (Hok _ Hn) as (k & c & [=] & _).
  - intros Hidle. destruct newParser as [st]. simpl in Hidle. subst st.
    apply (runtimeFree_visits (VObject defs) eq_refl ""). intros k c Hin.
    destruct (Hok _ Hin) as (k' & c' & [= <- <-] & Hleaf).
    specialize (Hleaf inv). apply runLeaf_completes in Hleaf as (codeStr & Hr & _).
    unfold recompute in Hr.
    destruct (toCode_idle rt c AsiNull) as [[Hfree _]|[_ [e He]]]; [done|].
    unfold idleParser in He. rewrite He in Hr. discriminate.
Qed.

Lemma run_completes_only_if_witness :
  nullFree (VObject sampleDefinitions) = true ∧
  (state idleParser = None → runtimeFree (VObject sampleDefinitions) = true).
Proof.
  apply (run_completes_only_if sampleTemplate idleParser sampleCache sampleDefinitions
           ∅ {[ "/src/index.js"; "/src/about.js" ]}).
  vm_compute. reflexivity.
Defined.

(** X6: for definitions without runtime values the pass does not depend on
    the parser it makes. *)
Theorem run_ignores_parser rt parser1 parser2 cache defs inv :
  runtimeFree (VObject defs) = true →
  runDefinitions rt parser1 cache defs inv = runDefinitions rt parser2 cache defs inv.
Proof.
  intros Hfree. unfold runDefinitions. rewrite !run_visits.
  apply forEachJs_ext. intros [k c|] Hin s; [|reflexivity].
  simpl. unfold runLeaf, recompute.
  destruct (toCode_runtimeFree rt c (visits_runtimeFree _ Hfree _ _ _ Hin) AsiNull)
    as [text Htext].
  by rewrite !Htext.
Qed.

Lemma run_ignores_parser_witness :
  runDefinitions sampleTemplate idleParser sampleCache sampleDefinitions ∅ =
    runDefinitions sampleTemplate (parserOf sampleModule) sampleCache sampleDefinitions ∅.
Proof.
  apply (run_ignores_parser sampleTemplate idleParser (parserOf sampleModule)
           sampleCache sampleDefinitions ∅).
  reflexivity.
Defined.

(** X7: the pass never takes a path out of the set, and a path it adds is
    a user the stored state has for a key it has a text for; this holds
    also when the pass stops on an exception. *)
Theorem run_only_adds_stored_users rt newParser cache defs inv :
  inv ⊆ snd (runDefinitions rt newParser cache defs inv) ∧
  ∀ m, m ∈ snd (runDefinitions rt newParser cache defs inv) →
       m ∈ inv ∨
       ∃ k users, is_Some (values cache !! k) ∧
                  modulesUsingKey cache !! k = Some users ∧ m ∈ users.
Proof.
  unfold runDefinitions. rewrite run_visits.
  destruct (forEachJs _ _ inv) as [r inv'] eqn:Hrun.
  destruct (forEachJs_visitStep_spec _ _ _ _ _ _ _ Hrun) as (Hsub & Hsound & _).
  simpl. split; [exact Hsub|]. intros m Hm.
  destruct (Hsound m Hm) as [|(k & c & users & _ & Hch & Hu & Hin)]; [by left|].
  right. exists k, users. split; [|done].
  destruct Hch as (codeStr & _ & _ & stored & -> & _). eauto.
Qed.

(** ** The keys of [walkDefinitions] and the keys of [run] *)

Lemma string_append_assoc (s1 s2 s3 : string) :
  (s1 +:+ s2) +:+ s3 = s1 +:+ s2 +:+ s3.
Proof.
  induction s1 as [|c s1 IH]; [reflexivity|].
  change (String c ((s1 +:+ s2) +:+ s3) = String c (s1 +:+ s2 +:+ s3)).
  by rewrite IH.
Qed.

Lemma fullKeyOf_nonempty prefix key :
  prefix ≠ "" → fullKeyOf prefix key = prefix +:+ "." +:+ key ∧ fullKeyOf prefix key ≠ "".
Proof.
  intros Hp. unfold fullKeyOf. destruct (decide (prefix = "")); [done|].
  split; [reflexivity|]. by destruct prefix.
Qed.

Lemma nullFree_isNested v :
  nullFree v = true → isNested v = isNestedDefinition v.
Proof. by destruct v. Qed.

Lemma leafPairs_app vs1 vs2 : leafPairs (vs1 ++ vs2) = leafPairs vs1 ++ leafPairs vs2.
Proof. apply flat_map_app. Qed.

(** Below a non-empty prefix the two walks give the same keys. *)
Lemma walkDefinitions_visits obj :
  ∀ prefix, nullFree obj = true → prefix ≠ "" →
            walkDefinitions obj (prefix +:+ ".") = leafPairs (visits obj prefix).
Proof.
  induction obj as [| | | | | | | | | |items IH|props IH] using CodeValue_nested_ind;
    intros prefix Hnull Hp; try reflexivity; try discriminate.
  - simpl in Hnull. simpl. generalize 0%nat as i.
    induction IH as [|v items Hv _ IHitems]; intros i; [reflexivity|].
    simpl in Hnull. apply andb_prop in Hnull as [Hnv Hnull].
    rewrite leafPairs_app, <- (IHitems Hnull (S i)). f_equal.
    destruct (fullKeyOf_nonempty prefix (pretty i) Hp) as [Hk Hne].
    rewrite (nullFree_isNested v Hnv).
    destruct (isNestedDefinition v).
    + rewrite <- (Hv _ Hnv Hne), Hk. by rewrite !string_append_assoc.
    + simpl. by rewrite Hk, string_append_assoc.
  - simpl in Hnull. simpl.
    induction IH as [|[k v] props Hv _ IHprops]; [reflexivity|].
    simpl in Hnull. apply andb_prop in Hnull as [Hnv Hnull].
    simpl. rewrite leafPairs_app, <- (IHprops Hnull). f_equal.
    destruct (fullKeyOf_nonempty prefix k Hp) as [Hk Hne].
    simpl in Hv. rewrite (nullFree_isNested v Hnv).
    destruct (isNestedDefinition v).
    + rewrite <- (Hv _ Hnv Hne), Hk. by rewrite !string_append_assoc.
    + simpl. by rewrite Hk, string_append_assoc.
Qed.

(** X8: for definitions without [null] whose own property names are not
    empty, the keys and values [walkDefinitions] hands to [applyDefine] are,
    in order, the keys and values [run] recomputes. *)
Theorem walkDefinitions_agrees_with_run defs :
  nullFree (VObject defs) = true →
  Forall (fun kv => fst kv ≠ "") defs →
  walkDefinitions (VObject defs) "" = leaves defs.
Proof.
  intros Hnull Hkeys. unfold leaves. simpl.
  induction Hkeys as [|[k v] defs Hk _ IH]; [reflexivity|].
  simpl in Hnull. apply andb_prop in Hnull as [Hnv Hnull].
  simpl. rewrite flat_map_app, <- (IH Hnull). f_equal.
  simpl in Hk. rewrite (nullFree_isNested v Hnv).
  assert (Hfull : fullKeyOf "" k = k) by reflexivity. rewrite Hfull.
  destruct (isNestedDefinition v).
  - change ("" +:+ k +:+ ".") with (k +:+ ".").
    by rewrite (walkDefinitions_visits v k Hnv Hk).
  - reflexivity.
Qed.

Lemma walkDefinitions_agrees_with_run_witness :
  walkDefinitions (VObject sampleDefinitions) "" = leaves sampleDefinitions.
Proof.
  apply walkDefinitions_agrees_with_run; [reflexivity|].
  repeat constructor; discriminate.
Defined.

(** Under an own property with the empty name the keys differ:
    [walkDefinitions] gives [.a] where [run] gives [a]. *)
Example empty_property_name_keys :
  map fst (walkDefinitions (VObject [("", VObject [("a", VNumber 1)])]) "") = [".a"] ∧
  map fst (leaves [("", VObject [("a", VNumber 1)])]) = ["a"].
Proof. split; reflexivity. Qed.

(** ** What a build records and what it forwards *)

Section BuildFacts.
Variable rt : RuntimeTemplate.
Variable newParser : JavascriptParser.
Variable definitions : list (string * CodeValue).
Variable path_dirname : string -> string.
Variable path_resolve : string -> string -> string.

Lemma substitutionsOf_snoc key events ev :
  substitutionsOf key (events ++ [ev]) =
    substitutionsOf key events ++ substitutionsOf key [ev].
Proof. unfold substitutionsOf. by rewrite flat_map_app. Qed.

Lemma lookupsOf_snoc events ev :
  lookupsOf (events ++ [ev]) = lookupsOf events ++ lookupsOf [ev].
Proof. unfold lookupsOf. by rewrite flat_map_app. Qed.

Lemma step_runState c ev :
  (∀ k s m, ev ≠ Substitution k s m) →
  runState (globals (step rt newParser definitions path_dirname path_resolve c ev)) =
    runState (globals c).
Proof.
  intros Hs. destruct ev as [err raw|call|k s m|].
  - assert (H : storeView (step rt newParser definitions path_dirname path_resolve c
                             (CacheRead err raw)) = storeView c)
      by (by apply step_storeView).
    unfold storeView in H. by injection H.
  - assert (H : storeView (step rt newParser definitions path_dirname path_resolve c
                             (Resolve call)) = storeView c)
      by (by apply step_storeView).
    unfold storeView in H. by injection H.
  - by destruct (Hs k s m).
  - simpl. unfold afterCompile.
    destruct (didAfterCompileHookRun (globals c)); [done|].
    by destruct (didCodeGeneration (globals c)).
Qed.

(** What the state holds for a key after some events of a build. *)
Lemma runBuild_runState events key :
  values (runState (globals (runBuild rt newParser definitions path_dirname
                               path_resolve events))) !! key =
    fst <$> last (substitutionsOf key events) ∧
  modulesUsingKey (runState (globals (runBuild rt newParser definitions path_dirname
                                        path_resolve events))) !! key =
    match substitutionsOf key events with
    | [] => None
    | recorded => Some (map snd recorded)
    end.
Proof.
  induction events as [|ev events [IHv IHu]] using rev_ind; [done|].
  rewrite runBuild_snoc, substitutionsOf_snoc.
  assert (Hother : (∀ k s m, ev ≠ Substitution k s m) →
    values (runState (globals (step rt newParser definitions path_dirname path_resolve
              (runBuild rt newParser definitions path_dirname path_resolve events) ev)))
      !! key = fst <$> last (substitutionsOf key events ++ substitutionsOf key [ev]) ∧
    modulesUsingKey (runState (globals (step rt newParser definitions path_dirname
              path_resolve
              (runBuild rt newParser definitions path_dirname path_resolve events) ev)))
      !! key =
      match substitutionsOf key events ++ substitutionsOf key [ev] with
      | [] => None
      | recorded => Some (map snd recorded)
      end).
  { intros Hno. rewrite step_runState by done.
    assert (Hnil : substitutionsOf key [ev] = []).
    { destruct ev as [| |k s m|]; try done. by destruct (Hno k s m). }
    by rewrite Hnil, app_nil_r. }
  destruct ev as [err raw|call|k s m|]; try (by apply Hother).
  clear Hother.
  assert (Hone : substitutionsOf key [Substitution k s m] =
                 if decide (k = key) then [(s, m)] else []).
  { unfold substitutionsOf. simpl. by destruct (decide (k = key)). }
  rewrite Hone.
  cbn [step setGlobals globals recordSubstitution runState values modulesUsingKey].
  destruct (decide (k = key)) as [->|Hk].
  - rewrite !lookup_insert_eq, last_snoc. split; [done|].
    rewrite IHu.
    destruct (substitutionsOf key events) as [|x l] eqn:Hl; [done|].
    simpl. by rewrite map_app.
  - rewrite !lookup_insert_ne by done. by rewrite app_nil_r.
Qed.
(** X9: after any events of a build, the text the state holds for a key is
    the text of the last substitution recorded for it, and the users it
    holds for the key are the module requests of all the substitutions
    recorded for it, in order and with repetitions; a key without
    substitution has neither. *)
Theorem state_holds_recorded_substitutions events key :
  values (runState (globals (runBuild rt newParser definitions path_dirname
                               path_resolve events))) !! key =
    fst <$> last (substitutionsOf key events) ∧
  modulesUsingKey (runState (globals (runBuild rt newParser definitions path_dirname
                                        path_resolve events))) !! key =
    match substitutionsOf key events with
    | [] => None
    | recorded => Some (map snd recorded)
    end.
Proof. apply runBuild_runState. Qed.

(** X10: in a state stored by the [afterCompile] tap, a key that has a
    text has users; so comparing a recomputed text with the stored one, for
    a key that is not a name inherited from [Object.prototype], does not
    throw. *)
Theorem stored_state_has_users events snapshot k :
  snapshot ∈ storeCalls (runBuild rt newParser definitions path_dirname
                           path_resolve events) →
  inheritedName k = false →
  (is_Some (values snapshot !! k) → is_Some (modulesUsingKey snapshot !! k)) ∧
  ∀ codeStr inv, fst (compareKey snapshot k codeStr inv) = Normal tt.
Proof.
  intros Hin _.
  assert (Hdom : is_Some (values snapshot !! k) →
                 is_Some (modulesUsingKey snapshot !! k)).
  { destruct (runBuild_store_invariant rt newParser definitions path_dirname
                path_resolve events) as (_ & _ & [[Hnil _]|(pre & _ & Hst)]).
    - rewrite Hnil in Hin. by apply elem_of_nil in Hin.
    - rewrite Hst in Hin. apply list_elem_of_singleton in Hin. subst snapshot.
      destruct (runBuild_runState pre k) as [-> ->].
      destruct (substitutionsOf k pre) as [|x l] using rev_ind.
      + simpl. by intros [? [=]].
      + destruct (l ++ [x]) eqn:Hl; [by destruct l|]. eauto. }
  split; [exact Hdom|]. intros codeStr inv. unfold compareKey.
  destruct (decide (codeStr = "")); [done|].
  destruct (values snapshot !! k) as [stored|] eqn:Hv; [|done].
  destruct (decide (stored ≠ "" ∧ codeStr ≠ stored)); [|done].
  destruct Hdom as [users ->]; [by eexists|]. done.
Qed.

(** X11: as long as the callback of the cache read has not run, no lookup
    reaches the original tap: the lookups wait, in order, for the promise. *)
Theorem lookups_wait_for_cache_read events :
  Forall (fun ev => ∀ err raw, ev ≠ CacheRead err raw) events →
  originalTapFnCalls (runBuild rt newParser definitions path_dirname
                        path_resolve events) = [] ∧
  reactions (runBuild rt newParser definitions path_dirname path_resolve events) =
    lookupsOf events ∧
  reconcilePromise (runBuild rt newParser definitions path_dirname
                      path_resolve events) = Pending.
Proof.
  induction events as [|ev events IH] using rev_ind; intros Hno; [done|].
  apply Forall_app in Hno as [Hevents Hev]. apply List.Forall_inv in Hev.
  destruct (IH Hevents) as (Hcalls & Hreact & Hp).
  rewrite runBuild_snoc, lookupsOf_snoc.
  destruct ev as [err raw|call|k s m|]; simpl.
  - by destruct (Hev err raw).
  - unfold tapFn. rewrite Hp. simpl. by rewrite Hreact.
  - by rewrite app_nil_r.
  - unfold afterCompile.
    destruct (didAfterCompileHookRun _); [by rewrite app_nil_r|].
    destruct (didCodeGeneration _); simpl; by rewrite app_nil_r.
Qed.

Lemma step_cacheEmpty c ev :
  reconcilePromise c = Fulfilled → cacheEmpty (globals c) = true →
  reconcilePromise (step rt newParser definitions path_dirname path_resolve c ev) =
    Fulfilled ∧
  cacheEmpty (globals (step rt newParser definitions path_dirname path_resolve c ev)) =
    true ∧
  originalTapFnCalls (step rt newParser definitions path_dirname path_resolve c ev) =
    originalTapFnCalls c ++ lookupsOf [ev].
Proof.
  intros Hp He. destruct ev as [err raw|call|k s m|]; simpl.
  - rewrite app_nil_r. unfold onCacheRead. destruct err as [e|].
    + unfold rejectReconcile, settle. by rewrite Hp.
    + destruct raw as [cache|].
      * destruct (runDefinitions _ _ _ _ _) as [[[]|e] paths]; simpl;
          unfold resolveReconcile, settle; simpl; by rewrite ?Hp.
      * simpl. unfold resolveReconcile, settle. simpl. by rewrite Hp.
  - unfold tapFn. rewrite Hp. unfold react, onReconciled. by rewrite He.
  - by rewrite app_nil_r.
  - rewrite app_nil_r. unfold afterCompile.
    destruct (didAfterCompileHookRun _); [done|].
    by destruct (didCodeGeneration _).
Qed.

(** X12: once a cache read has found nothing stored, every lookup, the
    waiting ones and all that follow, is handed to the original tap as it
    came, whatever happens later, further cache reads included:
    [cacheEmpty] is never reset. *)
Theorem empty_cache_forwards_all before rest :
  originalTapFnCalls
    (runBuild rt newParser definitions path_dirname path_resolve
       (map Resolve before ++ CacheRead None None :: rest)) =
    before ++ lookupsOf rest ∧
  cacheEmpty
    (globals (runBuild rt newParser definitions path_dirname path_resolve
                (map Resolve before ++ CacheRead None None :: rest))) = true.
Proof.
  induction rest as [|ev rest IH] using rev_ind.
  - unfold runBuild. rewrite foldl_app, foldl_tapFn_pending by reflexivity.
    cbn [foldl step onCacheRead snd]. unfold resolveReconcile, settle.
    cbn [reconcilePromise reactions setGlobals globals originalTapFnCalls storeCalls].
    assert (Hfold : ∀ calls c, cacheEmpty (globals c) = true →
      originalTapFnCalls
        (foldl (fun c call => react path_dirname path_resolve Fulfilled call c)
               c calls) =
        originalTapFnCalls c ++ calls ∧
      cacheEmpty (globals (foldl (fun c call => react path_dirname path_resolve
                                                  Fulfilled call c) c calls)) = true).
    { induction calls as [|call calls IHc]; intros c He; cbn [foldl].
      - by rewrite app_nil_r.
      - assert (Hreact : react path_dirname path_resolve Fulfilled call c =
                         originalTapFn call c)
          by (unfold react, onReconciled; by rewrite He).
        rewrite Hreact.
        destruct (IHc (originalTapFn call c)) as [-> ->]; [exact He|].
        simpl. by rewrite <- app_assoc. }
    match goal with |- context [foldl _ ?c0 _] =>
      destruct (Hfold (reactions initialCompiler ++ before) c0) as [-> ->];
        [reflexivity|] end.
    by rewrite app_nil_r.
  - destruct IH as [Hcalls He].
    rewrite app_comm_cons, app_assoc, runBuild_snoc, lookupsOf_snoc.
    assert (Hp : ∀ rest0, reconcilePromise
              (runBuild rt newParser definitions path_dirname path_resolve
                 (map Resolve before ++ CacheRead None None :: rest0)) = Fulfilled ∧
            cacheEmpty (globals
              (runBuild rt newParser definitions path_dirname path_resolve
                 (map Resolve before ++ CacheRead None None :: rest0))) = true).
    { clear. intros rest0. induction rest0 as [|ev0 rest0 [IHp IHe]] using rev_ind.
      - unfold runBuild. rewrite foldl_app, foldl_tapFn_pending by reflexivity.
        cbn [foldl step onCacheRead snd]. unfold resolveReconcile, settle.
        cbn [reconcilePromise reactions setGlobals globals].
        match goal with |- context [foldl _ ?c0 ?l] =>
          assert (Hc0 : reconcilePromise c0 = Fulfilled ∧ cacheEmpty (globals c0) = true)
            by done;
          revert Hc0; generalize c0; generalize l end.
        induction l as [|x l IHl]; intros c0 [H1 H2]; [done|].
        cbn [foldl]. apply IHl. unfold react, onReconciled. by rewrite H2.
      - rewrite app_comm_cons, app_assoc, runBuild_snoc.
        destruct (step_cacheEmpty _ ev0 IHp IHe) as (? & ? & _). done. }
    destruct (Hp rest) as [Hpr Her].
    destruct (step_cacheEmpty _ ev Hpr Her) as (_ & -> & ->).
    rewrite Hcalls. by rewrite <- app_assoc.
Qed.
End BuildFacts.

Lemma stored_state_has_users_witness :
  let dirname := fun s : string => s in
  let resolve := fun _ r : string => r in
  let events := [Substitution "VERSION" "2" "/src/index.js";
                 Substitution "VERSION" "2" "/src/about.js"; AfterCompile] in
  let snapshot :=
    runState (globals (runBuild sampleTemplate idleParser sampleDefinitions
                         dirname resolve events)) in
  snapshot ∈ storeCalls (runBuild sampleTemplate idleParser sampleDefinitions
                           dirname resolve events) ∧
  (is_Some (values snapshot !! "VERSION") →
   is_Some (modulesUsingKey snapshot !! "VERSION")) ∧
  ∀ codeStr inv, fst (compareKey snapshot "VERSION" codeStr inv) = Normal tt.
Proof.
  intros dirname resolve events snapshot.
  assert (H : snapshot ∈ storeCalls (runBuild sampleTemplate idleParser
                sampleDefinitions dirname resolve events))
    by (apply list_elem_of_In; left; vm_compute; reflexivity).
  split; [exact H|].
  exact (stored_state_has_users sampleTemplate idleParser sampleDefinitions
           dirname resolve events snapshot "VERSION" H eq_refl).
Defined.

Lemma lookups_wait_for_cache_read_witness :
  let dirname := fun s : string => s in
  let resolve := fun _ r : string => r in
  let events := [Resolve (sampleCall "/src/index.js" 1);
                 Substitution "VERSION" "2" "/src/index.js";
                 Resolve (sampleCall "/src/log.js" 2); AfterCompile] in
  originalTapFnCalls (runBuild sampleTemplate idleParser sampleDefinitions
                        dirname resolve events) = [] ∧
  reactions (runBuild sampleTemplate idleParser sampleDefinitions dirname resolve
               events) =
    [sampleCall "/src/index.js" 1; sampleCall "/src/log.js" 2] ∧
  reconcilePromise (runBuild sampleTemplate idleParser sampleDefinitions
                      dirname resolve events) = Pending.
Proof.
  intros dirname resolve events.
  apply (lookups_wait_for_cache_read sampleTemplate idleParser sampleDefinitions
           dirname resolve events).
  repeat constructor; discriminate.
Defined.

Section PendingFacts.
Variable rt : RuntimeTemplate.
Variable newParser : JavascriptParser.
Variable definitions : list (string * CodeValue).
Variable path_dirname : string -> string.
Variable path_resolve : string -> string -> string.

Lemma foldl_step_pending events :
  Forall (fun ev => ∀ err raw, ev ≠ CacheRead err raw) events →
  ∀ c, reconcilePromise c = Pending →
  reconcilePromise
    (foldl (step rt newParser definitions path_dirname path_resolve) c events) =
    Pending ∧
  originalTapFnCalls
    (foldl (step rt newParser definitions path_dirname path_resolve) c events) =
    originalTapFnCalls c ∧
  reactions
    (foldl (step rt newParser definitions path_dirname path_resolve) c events) =
    reactions c ++ lookupsOf events ∧
  invalidModulePaths
    (globals (foldl (step rt newParser definitions path_dirname path_resolve)
                c events)) =
    invalidModulePaths (globals c).
Proof.
  induction 1 as [|ev events Hev _ IH]; intros c Hp; simpl.
  { by rewrite app_nil_r. }
  destruct ev as [err raw|call|k s m|]; cbn [step].
  - by destruct (Hev err raw).
  - destruct (IH (tapFn path_dirname path_resolve call c)) as (-> & -> & -> & ->);
      unfold tapFn; rewrite Hp; simpl; [done|]. by rewrite <- app_assoc.
  - destruct (IH (setGlobals (recordSubstitution k s m (globals c)) c))
      as (-> & -> & -> & ->); done.
  - destruct (IH (afterCompile c)) as (-> & -> & -> & ->);
      unfold afterCompile; destruct (didAfterCompileHookRun _); try done;
      destruct (didCodeGeneration _); done.
Qed.

(** X13: when comparing the definitions with the stored state throws, the
    promise is never settled: every lookup of the build, made before or
    after the cache read, waits and none reaches the original tap; the
    module paths added before the exception stay in the set. *)
Theorem run_exception_starves_lookups cache e paths before after :
  runDefinitions rt newParser cache definitions ∅ = (Throw e, paths) →
  Forall (fun ev => ∀ err raw, ev ≠ CacheRead err raw) before →
  Forall (fun ev => ∀ err raw, ev ≠ CacheRead err raw) after →
  originalTapFnCalls
    (runBuild rt newParser definitions path_dirname path_resolve
       (before ++ CacheRead None (Some cache) :: after)) = [] ∧
  reactions
    (runBuild rt newParser definitions path_dirname path_resolve
       (before ++ CacheRead None (Some cache) :: after)) =
    lookupsOf before ++ lookupsOf after ∧
  reconcilePromise
    (runBuild rt newParser definitions path_dirname path_resolve
       (before ++ CacheRead None (Some cache) :: after)) = Pending ∧
  invalidModulePaths
    (globals (runBuild rt newParser definitions path_dirname path_resolve
                (before ++ CacheRead None (Some cache) :: after))) = paths.
Proof.
  intros Hrun Hbefore Hafter. unfold runBuild. rewrite foldl_app.
  destruct (foldl_step_pending before Hbefore initialCompiler eq_refl)
    as (Hp & Hcalls & Hreact & Hinv).
  set (c := foldl _ initialCompiler before) in *.
  cbn [foldl step].
  assert (Hcr : snd (onCacheRead rt newParser definitions path_dirname path_resolve
                       None (Some cache) c) =
                setGlobals (setInvalidModulePaths paths (globals c)) c).
  { unfold onCacheRead. rewrite Hinv.
    change (invalidModulePaths (globals initialCompiler)) with (∅ : gset string).
    by rewrite Hrun. }
  rewrite Hcr.
  destruct (foldl_step_pending after Hafter
              (setGlobals (setInvalidModulePaths paths (globals c)) c) Hp)
    as (-> & -> & -> & ->).
  simpl. by rewrite Hcalls, Hreact.
Qed.
End PendingFacts.

Lemma run_exception_starves_lookups_witness :
  let dirname := fun s : string => s in
  let resolve := fun _ r : string => r in
  let definitions := [("VERSION", VString "2"); ("FLAGS", VNull)] in
  let before := [Resolve (sampleCall "/src/index.js" 1)] in
  let after := [Resolve (sampleCall "/src/log.js" 2); AfterCompile] in
  let c := runBuild sampleTemplate idleParser definitions dirname resolve
             (before ++ CacheRead None (Some sampleCache) :: after) in
  originalTapFnCalls c = [] ∧
  reactions c = [sampleCall "/src/index.js" 1; sampleCall "/src/log.js" 2] ∧
  reconcilePromise c = Pending ∧
  invalidModulePaths (globals c) = {[ "/src/index.js"; "/src/about.js" ]}.
Proof.
  intros dirname resolve definitions before after c.
  apply (run_exception_starves_lookups sampleTemplate idleParser definitions
           dirname resolve sampleCache
           (TypeError "Cannot convert undefined or null to object")
           {[ "/src/index.js"; "/src/about.js" ]} before after).
  - vm_compute. reflexivity.
  - repeat constructor; discriminate.
  - repeat constructor; discriminate.
Defined.

(** ** applyDefineKey *)

Lemma split_nonempty sep s : split sep s ≠ [].
Proof.
  destruct s as [|c s]; simpl; [done|].
  destruct (decide (c = sep)); [done|]. by destruct (split sep s).
Qed.

Lemma split_length sep s : length (split sep s) = S (occurrences sep s).
Proof.
  induction s as [|c s IH]; simpl; [done|].
  destruct (decide (c = sep)); simpl; [by rewrite IH|].
  pose proof (split_nonempty sep s). destruct (split sep s); [done|].
  simpl in *. lia.
Qed.

Lemma split_app sep p rest :
  split sep (p +:+ String sep rest) = split sep p ++ split sep rest.
Proof.
  induction p as [|c p IH]; simpl.
  { by destruct (decide (sep = sep)). }
  destruct (decide (c = sep)); [by rewrite IH|].
  rewrite IH. pose proof (split_nonempty sep p). by destruct (split sep p).
Qed.

Lemma join_cons sep x l :
  l ≠ [] → join sep (x :: l) = x +:+ sep +:+ join sep l.
Proof. by destruct l. Qed.

Lemma join_app sep l1 l2 :
  l1 ≠ [] → l2 ≠ [] →
  join sep (l1 ++ l2) = join sep l1 +:+ sep +:+ join sep l2.
Proof.
  intros H1 H2. induction l1 as [|x l1 IH]; [done|].
  destruct l1 as [|y l1].
  - simpl app. by rewrite join_cons.
  - change ((x :: y :: l1) ++ l2) with (x :: ((y :: l1) ++ l2)).
    rewrite (join_cons sep x ((y :: l1) ++ l2)) by (simpl; discriminate).
    rewrite IH by discriminate.
    rewrite (join_cons sep x (y :: l1)) by discriminate.
    by rewrite !string_append_assoc.
Qed.

Lemma join_split sep s : join (String sep EmptyString) (split sep s) = s.
Proof.
  induction s as [|c s IH]; [done|]. simpl split.
  destruct (decide (c = sep)) as [->|Hne].
  - rewrite join_cons by apply split_nonempty. by rewrite IH.
  - pose proof (split_nonempty sep s) as Hs.
    destruct (split sep s) as [|segment segments]; [done|].
    destruct segments as [|segment' segments].
    + simpl in *. by rewrite IH.
    + rewrite join_cons in IH by done. rewrite join_cons by done.
      simpl. by rewrite <- IH.
Qed.

(** X14: [applyDefineKey(prefix, key)] taps [canRename] for the prefix
    followed by each part of the key that ends before one of its dots, and
    for nothing else: once for every dot of the key. *)
Theorem applyDefineKey_names prefix key :
  (∀ name, name ∈ applyDefineKey prefix key ↔
           ∃ p rest, key = p +:+ "." +:+ rest ∧ name = prefix +:+ p) ∧
  length (applyDefineKey prefix key) = occurrences "." key.
Proof.
  unfold applyDefineKey. split.
  - intros name. rewrite list_elem_of_lookup. split.
    + intros [i Hi]. rewrite list_lookup_imap in Hi.
      destruct (drop 1 (split "." key) !! i) as [segment|] eqn:Hd; [|done].
      simpl in Hi. injection Hi as <-.
      rewrite lookup_drop in Hd. apply lookup_lt_Some in Hd.
      exists (join "." (take (i + 1) (split "." key))),
             (join "." (drop (i + 1) (split "." key))).
      split; [|done].
      rewrite <- join_app.
      * by rewrite take_drop, join_split.
      * intros Ht. apply (f_equal length) in Ht. rewrite length_take in Ht.
        simpl in Ht. lia.
      * intros Ht. apply (f_equal length) in Ht. rewrite length_drop in Ht.
        simpl in Ht. lia.
    + intros (p & rest & -> & ->).
      pose proof (split_nonempty "." p) as Hp.
      pose proof (split_nonempty "." rest) as Hrest.
      exists (length (split "." p) - 1). rewrite list_lookup_imap.
      change (p +:+ "." +:+ rest) with (p +:+ String "." rest).
      rewrite split_app, lookup_drop.
      assert (Hlen : length (split "." p) ≠ 0) by by destruct (split "." p).
      replace (1 + (length (split "." p) - 1)) with (length (split "." p) + 0) by lia.
      replace (length (split "." p) - 1 + 1) with (length (split "." p)) by lia.
      rewrite lookup_app_r by lia.
      replace (length (split "." p) + 0 - length (split "." p)) with 0 by lia.
      destruct (split "." rest) as [|segment segments] eqn:Hs; [done|].
      simpl. rewrite take_app_length. by rewrite join_split.
  - rewrite length_imap, length_drop, split_length. lia.
Qed.

(** ** Keys of the form [typeof ...] *)

Lemma stripPrefix_spec p s r : stripPrefix p s = Some r ↔ s = p +:+ r.
Proof.
  revert s. induction p as [|a p IH]; intros s; simpl.
  { split; [by intros [= ->] | by intros ->]. }
  destruct s as [|b s]; [split; discriminate|].
  destruct (decide (a = b)) as [->|Hne].
  - rewrite IH. split; [by intros -> | by intros [= ->]].
  - split; [discriminate | by intros [= -> _]].
Qed.

Lemma string_length_append (s1 s2 : string) :
  String.length (s1 +:+ s2) = String.length s1 + String.length s2.
Proof.
  induction s1 as [|c s1 IH]; [done|].
  change (S (String.length (s1 +:+ s2)) = S (String.length s1 + String.length s2)).
  by rewrite IH.
Qed.

Lemma string_append_inv_head (p s1 s2 : string) : p +:+ s1 = p +:+ s2 → s1 = s2.
Proof.
  induction p as [|c p IH]; [done|].
  change (String c (p +:+ s1) = String c (p +:+ s2) → s1 = s2).
  intros [= H]. by apply IH.
Qed.

Lemma string_append_nil_r (s : string) : s +:+ "" = s.
Proof.
  induction s as [|c s IH]; [done|].
  change (String c (s +:+ "") = String c s). by rewrite IH.
Qed.

(** Of two strings that start the same string, one starts the other. *)
Lemma string_prefixes_comparable (p1 p2 s1 s2 : string) :
  p1 +:+ s1 = p2 +:+ s2 →
  is_Some (stripPrefix p1 p2) ∨ is_Some (stripPrefix p2 p1).
Proof.
  revert p2. induction p1 as [|c1 p1 IH]; intros p2; [by left; eexists|].
  destruct p2 as [|c2 p2]; [by right; eexists|].
  change (String c1 (p1 +:+ s1) = String c2 (p2 +:+ s2) →
          is_Some (stripPrefix (String c1 p1) (String c2 p2)) ∨
          is_Some (stripPrefix (String c2 p2) (String c1 p1))).
  intros [= -> H]. cbn [stripPrefix].
  destruct (decide (c2 = c2)); [|done]. by apply IH.
Qed.

(** No character matched by [\s] starts another one. *)
Lemma whiteSpaceChars_prefix_free w1 w2 :
  w1 ∈ whiteSpaceChars → w2 ∈ whiteSpaceChars →
  is_Some (stripPrefix w1 w2) → w1 = w2.
Proof.
  assert (Hall : forallb (fun w1 =>
                   forallb (fun w2 =>
                     match stripPrefix w1 w2 with
                     | Some _ => bool_decide (w1 = w2)
                     | None => true
                     end) whiteSpaceChars) whiteSpaceChars = true)
    by (vm_compute; reflexivity).
  intros H1 H2 [t Ht]. rewrite List.forallb_forall in Hall.
  apply list_elem_of_In in H1, H2. specialize (Hall w1 H1).
  rewrite List.forallb_forall in Hall. specialize (Hall w2 H2).
  rewrite Ht in Hall. by apply bool_decide_eq_true in Hall.
Qed.

Lemma whiteSpaceChars_nonempty w : w ∈ whiteSpaceChars → (1 ≤ String.length w)%nat.
Proof.
  assert (Hall : forallb (fun w => (1 <=? String.length w)%nat) whiteSpaceChars = true)
    by (vm_compute; reflexivity).
  intros Hw. rewrite List.forallb_forall in Hall. apply list_elem_of_In in Hw.
  apply Nat.leb_le. by apply Hall.
Qed.

Lemma head_omap_Some {A B} (f : A -> option B) (l : list A) (y : B) :
  head (omap f l) = Some y →
  ∃ l1 x l2, l = l1 ++ x :: l2 ∧ f x = Some y ∧ Forall (fun x' => f x' = None) l1.
Proof.
  induction l as [|x l IH]; [done|]. cbn [omap list_omap].
  change (omap f (x :: l)) with (match f x with
                                 | Some y => y :: omap f l
                                 | None => omap f l
                                 end).
  destruct (f x) as [y'|] eqn:Hx.
  - intros [= ->]. by exists [], x, l.
  - intros H. destruct (IH H) as (l1 & x' & l2 & -> & Hx' & Hl1).
    exists (x :: l1), x', l2. repeat split; [done|]. by constructor.
Qed.

Lemma head_omap_None {A B} (f : A -> option B) (l : list A) :
  head (omap f l) = None ↔ Forall (fun x => f x = None) l.
Proof.
  induction l as [|x l IH]; [by split; [constructor|]|].
  change (omap f (x :: l)) with (match f x with
                                 | Some y => y :: omap f l
                                 | None => omap f l
                                 end).
  destruct (f x) as [y'|] eqn:Hx.
  - split; [done|]. intros H. apply List.Forall_inv in H. congruence.
  - rewrite IH. split; [by constructor|]. intros H. by apply Forall_inv_tail in H.
Qed.

Lemma stripWhiteSpace_spec s rest :
  stripWhiteSpace s = Some rest ↔ ∃ w, w ∈ whiteSpaceChars ∧ s = w +:+ rest.
Proof.
  unfold stripWhiteSpace. split.
  - intros H. apply head_omap_Some in H as (l1 & w & l2 & Hl & Hw & _).
    exists w. split; [rewrite Hl; set_solver|]. by apply stripPrefix_spec.
  - intros (w & Hw & ->).
    destruct (head (omap (fun w0 => stripPrefix w0 (w +:+ rest)) whiteSpaceChars))
      as [rest'|] eqn:Hhead.
    + apply head_omap_Some in Hhead as (l1 & w' & l2 & Hl & Hw' & _).
      assert (Hin : w' ∈ whiteSpaceChars) by (rewrite Hl; set_solver).
      apply stripPrefix_spec in Hw'.
      assert (w = w') as <-.
      { destruct (string_prefixes_comparable _ _ _ _ Hw').
        - by apply whiteSpaceChars_prefix_free.
        - symmetry. by apply whiteSpaceChars_prefix_free. }
      f_equal. symmetry. by eapply string_append_inv_head.
    + apply head_omap_None in Hhead. rewrite Forall_forall in Hhead.
      specialize (Hhead w Hw).
      assert (Hsome : stripPrefix w (w +:+ rest) = Some rest)
        by by apply stripPrefix_spec.
      congruence.
Qed.

Lemma stripWhiteSpace_None s : stripWhiteSpace s = None ↔ ¬ startsWithWhiteSpace s.
Proof.
  unfold startsWithWhiteSpace. split.
  - intros Hnone (w & tail & Hw & Hs).
    assert (Hsome : stripWhiteSpace s = Some tail)
      by (apply stripWhiteSpace_spec; eauto).
    congruence.
  - intros Hno. destruct (stripWhiteSpace s) as [rest|] eqn:Hs; [|done].
    apply stripWhiteSpace_spec in Hs as (w & Hw & ->). destruct Hno. eauto.
Qed.

Lemma join_empty_cons w ws : join "" (w :: ws) = w +:+ join "" ws.
Proof.
  destruct ws as [|w' ws].
  - simpl. by rewrite string_append_nil_r.
  - by rewrite join_cons.
Qed.

Lemma dropWhiteSpaceWithin_spec n :
  ∀ s, (String.length s ≤ n)%nat →
       ∃ ws, Forall (fun w => w ∈ whiteSpaceChars) ws ∧
             s = join "" ws +:+ dropWhiteSpaceWithin n s ∧
             ¬ startsWithWhiteSpace (dropWhiteSpaceWithin n s).
Proof.
  induction n as [|n IH]; intros s Hlen.
  - destruct s as [|c s]; [|simpl in Hlen; lia].
    exists []. repeat split; [constructor|]. by apply stripWhiteSpace_None.
  - cbn [dropWhiteSpaceWithin].
    destruct (stripWhiteSpace s) as [rest|] eqn:Hs.
    + apply stripWhiteSpace_spec in Hs as (w & Hw & ->).
      pose proof (whiteSpaceChars_nonempty w Hw) as Hw1.
      rewrite string_length_append in Hlen.
      destruct (IH rest) as (ws & Hws & Hrest & Hno); [lia|].
      exists (w :: ws). split; [by constructor|]. split; [|exact Hno].
      rewrite join_empty_cons, string_append_assoc. by rewrite <- Hrest.
    + exists []. repeat split; [constructor|]. by apply stripWhiteSpace_None.
Qed.

Lemma dropWhiteSpaceWithin_unique ws :
  Forall (fun w => w ∈ whiteSpaceChars) ws →
  ∀ rest n, ¬ startsWithWhiteSpace rest →
            (String.length (join "" ws +:+ rest) ≤ n)%nat →
            dropWhiteSpaceWithin n (join "" ws +:+ rest) = rest.
Proof.
  induction 1 as [|w ws Hw _ IH]; intros rest n Hno Hlen.
  - change (join "" [] +:+ rest) with rest.
    apply stripWhiteSpace_None in Hno.
    destruct n as [|n]; [done|]. cbn [dropWhiteSpaceWithin]. by rewrite Hno.
  - rewrite join_empty_cons, string_append_assoc in Hlen |- *.
    pose proof (whiteSpaceChars_nonempty w Hw) as Hw1.
    rewrite string_length_append in Hlen.
    destruct n as [|n]; [lia|]. cbn [dropWhiteSpaceWithin].
    assert (Hs : stripWhiteSpace (w +:+ join "" ws +:+ rest) =
                 Some (join "" ws +:+ rest))
      by (apply stripWhiteSpace_spec; eauto).
    rewrite Hs. apply IH; [done | lia].
Qed.

Lemma dropWhiteSpace_spec s rest :
  dropWhiteSpace s = rest ↔
  ∃ ws, Forall (fun w => w ∈ whiteSpaceChars) ws ∧
        s = join "" ws +:+ rest ∧ ¬ startsWithWhiteSpace rest.
Proof.
  unfold dropWhiteSpace. split.
  - intros <-. by apply dropWhiteSpaceWithin_spec.
  - intros (ws & Hws & -> & Hno). by apply dropWhiteSpaceWithin_unique.
Qed.

(** X15: a key is treated as a [typeof] key exactly when it starts with
    [typeof] and at least one character matched by [\s]; the key the taps
    are registered under is what follows all the white space there is
    after [typeof]. *)
Theorem afterTypeof_matches key rest :
  afterTypeof key = Some rest ↔
  ∃ w ws, w ∈ whiteSpaceChars ∧ Forall (fun w' => w' ∈ whiteSpaceChars) ws ∧
          key = "typeof" +:+ w +:+ join "" ws +:+ rest ∧
          ¬ startsWithWhiteSpace rest.
Proof.
  unfold afterTypeof. split.
  - destruct (stripPrefix "typeof" key) as [tail|] eqn:Hp; [|done].
    apply stripPrefix_spec in Hp.
    destruct (stripWhiteSpace tail) as [tail'|] eqn:Hw; [|done].
    apply stripWhiteSpace_spec in Hw as (w & Hw & ->).
    intros [= Hd]. apply dropWhiteSpace_spec in Hd as (ws & Hws & -> & Hno).
    by exists w, ws.
  - intros (w & ws & Hw & Hws & -> & Hno).
    assert (Hp : stripPrefix "typeof" ("typeof" +:+ w +:+ join "" ws +:+ rest) =
                 Some (w +:+ join "" ws +:+ rest)) by by apply stripPrefix_spec.
    rewrite Hp.
    assert (Hs : stripWhiteSpace (w +:+ join "" ws +:+ rest) =
                 Some (join "" ws +:+ rest))
      by (apply stripWhiteSpace_spec; eauto).
    rewrite Hs. f_equal. apply dropWhiteSpace_spec. by exists ws.
Qed.

(** A no-break space (U+00A0) after [typeof] makes a [typeof] key, and
    the line separator (U+2028) that follows it is dropped, too. *)
Example typeof_key_with_no_break_space :
  afterTypeof ("typeof" +:+ utf8 160 +:+ utf8 8232 +:+ "A") = Some "A" ∧
  afterTypeof "typeofA" = None ∧
  afterTypeof ("typeof" +:+ utf8 8203 +:+ "A") = None.
Proof. vm_compute. done. Qed.

(** ** hookCallback with the in-memory cache *)

Lemma hookCallbackMap_hit {R} key
    (callback : Expression -> Js MapCache (option (string * R)))
    expr module codeStr result st :
  callback expr st = (Normal (Some (codeStr, result)), st) →
  cacheItems st !! key = Some codeStr →
  hookCallbackMap key callback expr module st = (Normal (Some result), st).
Proof.
  intros Hcall Hkey. unfold hookCallbackMap. rewrite Hcall, Hkey.
  destruct (decide (codeStr = "")) as [Hempty|Hfull].
  - f_equal. destruct st as [items builds]. simpl in *. f_equal.
    by apply insert_id.
  - by destruct (decide (codeStr ≠ codeStr)).
Qed.

(** X16: in the variant with the in-memory cache, when the callback gives
    a text and a result without touching the cache, the wrapped callback
    returns the result and leaves the text cached under the key; it
    invalidates the build of the module exactly when a non-empty text was
    cached for the key before and differs from the new one; a further call
    that meets the same text changes nothing. *)
Theorem hookCallbackMap_caches_text {R} key
    (callback : Expression -> Js MapCache (option (string * R)))
    expr module codeStr result st :
  (∀ st', callback expr st' = (Normal (Some (codeStr, result)), st')) →
  fst (hookCallbackMap key callback expr module st) = Normal (Some result) ∧
  cacheItems (snd (hookCallbackMap key callback expr module st)) !! key =
    Some codeStr ∧
  (∀ k, k ≠ key →
        cacheItems (snd (hookCallbackMap key callback expr module st)) !! k =
          cacheItems st !! k) ∧
  invalidatedBuilds (snd (hookCallbackMap key callback expr module st)) =
    invalidatedBuilds st ++
      match cacheItems st !! key with
      | Some item =>
          if decide (item ≠ "" ∧ item ≠ codeStr) then [request module] else []
      | None => []
      end ∧
  ∀ module',
    hookCallbackMap key callback expr module'
      (snd (hookCallbackMap key callback expr module st)) =
      (Normal (Some result), snd (hookCallbackMap key callback expr module st)).
Proof.
  intros Hcall.
  assert (Hfirst :
    fst (hookCallbackMap key callback expr module st) = Normal (Some result) ∧
    cacheItems (snd (hookCallbackMap key callback expr module st)) !! key =
      Some codeStr ∧
    (∀ k, k ≠ key →
          cacheItems (snd (hookCallbackMap key callback expr module st)) !! k =
            cacheItems st !! k) ∧
    invalidatedBuilds (snd (hookCallbackMap key callback expr module st)) =
      invalidatedBuilds st ++
        match cacheItems st !! key with
        | Some item =>
            if decide (item ≠ "" ∧ item ≠ codeStr) then [request module] else []
        | None => []
        end).
  { unfold hookCallbackMap. rewrite Hcall.
    destruct (cacheItems st !! key) as [item|] eqn:Hitem.
    - destruct (decide (item = "")) as [Hempty|Hfull].
      + simpl. rewrite lookup_insert_eq.
        destruct (decide (item ≠ "" ∧ item ≠ codeStr)) as [[? _]|_]; [done|].
        rewrite app_nil_r. repeat split; try done.
        intros k Hk. by rewrite lookup_insert_ne.
      + destruct (decide (item ≠ codeStr)) as [Hdiff|Hsame]; simpl.
        * rewrite lookup_insert_eq.
          destruct (decide (item ≠ "" ∧ item ≠ codeStr)) as [_|Hn];
            [|by destruct Hn].
          repeat split; try done.
          intros k Hk. by rewrite lookup_insert_ne, lookup_delete_ne.
        * destruct (decide (item ≠ "" ∧ item ≠ codeStr)) as [[_ ?]|_]; [done|].
          rewrite app_nil_r. repeat split; try done.
          rewrite Hitem. f_equal. by destruct (decide (item = codeStr)).
    - simpl. rewrite lookup_insert_eq, app_nil_r. repeat split; try done.
      intros k Hk. by rewrite lookup_insert_ne. }
  destruct Hfirst as (Hres & Hkey & Hother & Hbuilds).
  repeat split; try done.
  intros module'. by apply (hookCallbackMap_hit _ _ _ _ codeStr).
Qed.

Lemma hookCallbackMap_caches_text_witness :
  let callback := fun (_ : Expression) (st : MapCache) =>
                    (Normal (Some ("2", tt)), st) in
  let st := {| cacheItems := {[ "VERSION" := "1" ]}; invalidatedBuilds := [] |} in
  let call := hookCallbackMap "VERSION" callback sampleExpression sampleModule in
  fst (call st) = Normal (Some tt) ∧
  cacheItems (snd (call st)) !! "VERSION" = Some "2" ∧
  (∀ k, k ≠ "VERSION" → cacheItems (snd (call st)) !! k = cacheItems st !! k) ∧
  invalidatedBuilds (snd (call st)) = ["/src/index.js"] ∧
  ∀ module',
    hookCallbackMap "VERSION" callback sampleExpression module' (snd (call st)) =
      (Normal (Some tt), snd (call st)).
Proof.
  intros callback st call.
  exact (hookCallbackMap_caches_text "VERSION" callback sampleExpression
           sampleModule "2" tt st (fun _ => eq_refl)).
Defined.

(** ** The taps of applyDefine *)

Section TapFacts.
Variable rt : RuntimeTemplate.
Variable parse : string -> Evaluation.
Variable defines : list (string * CodeValue).

Lemma tapOf_declines evaluate kind d expr module h :
  fst d ∈ flagsOf kind h →
  tapOf rt evaluate kind d expr module h = Some (Normal None, h).
Proof.
  intros Hin. destruct kind; simpl in *;
    unfold evaluateIdentifierTap, evaluateTypeofTap; apply hookCallback_no_result.
  - by apply evaluateIdentifierCallback_no_result.
  - by apply evaluateTypeofCallback_no_result.
Qed.

(** X17: when a tap of [applyDefine] throws, from serialising the value or
    from [parser.evaluate], the recursion flag it had set is not reset:
    from then on this tap returns no result and leaves everything as it
    is, for every expression and module. *)
Theorem failed_tap_declines_from_then_on depth kind d expr m h e h' :
  (fst d < length defines)%nat →
  (clearFlags defines h ≤ depth)%nat →
  tapOf rt (evaluate rt parse defines depth) kind d expr (Some m) h =
    Some (Throw e, h') →
  fst d ∈ flagsOf kind h' ∧
  ∀ evaluate' expr' module',
    tapOf rt evaluate' kind d expr' module' h' = Some (Normal None, h').
Proof.
  intros Hi Hd Htap.
  assert (Hflag : fst d ∈ flagsOf kind h');
    [|split; [exact Hflag | intros; by apply tapOf_declines]].
  destruct d as [i [key code]]. simpl in Hi |- *.
  destruct kind; simpl in Htap |- *.
  - unfold evaluateIdentifierTap, hookCallback, hbind, evaluateIdentifierCallback
      in Htap.
    destruct (decide (i ∈ recurse h)) as [Hin|Hnin]; [discriminate|].
    pose proof (clearFlags_setRecurse defines h i Hi Hnin) as Hlt.
    set (h1 := setRecurse ({[i]} ∪ recurse h) h) in *.
    unfold hbind in Htap.
    destruct (withParser (toCode rt code AsiNull) h1) as [[[strCode|e1] h2]|] eqn:Hw;
      [| |discriminate].
    + destruct (withParser_flags _ _ _ _ Hw) as [Hr2 Ht2].
      destruct (evaluate_settles rt parse defines depth strCode h2)
        as (r & h3 & He & [Hk _]).
      { unfold clearFlags in *. rewrite Hr2, Ht2. simpl in *. lia. }
      rewrite He in Htap. destruct r as [res|e3]; [discriminate|].
      injection Htap as _ <-. apply Hk. rewrite Hr2. subst h1. simpl. set_solver.
    + destruct (withParser_flags _ _ _ _ Hw) as [Hr2 _].
      injection Htap as _ <-. rewrite Hr2. subst h1. simpl. set_solver.
  - unfold evaluateTypeofTap, hookCallback, hbind, evaluateTypeofCallback in Htap.
    destruct (decide (i ∈ recurseTypeof h)) as [Hin|Hnin]; [discriminate|].
    pose proof (clearFlags_setRecurseTypeof defines h i Hi Hnin) as Hlt.
    set (h1 := setRecurseTypeof ({[i]} ∪ recurseTypeof h) h) in *.
    unfold hbind in Htap.
    destruct (withParser (toCode rt code AsiNull) h1) as [[[strCode|e1] h2]|] eqn:Hw;
      [| |discriminate].
    + destruct (withParser_flags _ _ _ _ Hw) as [Hr2 Ht2].
      destruct (evaluate_settles rt parse defines depth
                  (typeofCodeOf key strCode) h2) as (r & h3 & He & [_ Hk]).
      { unfold clearFlags in *. rewrite Hr2, Ht2. simpl in *. lia. }
      rewrite He in Htap. destruct r as [res|e3]; [discriminate|].
      injection Htap as _ <-. apply Hk. rewrite Ht2. subst h1. simpl. set_solver.
    + destruct (withParser_flags _ _ _ _ Hw) as [_ Ht2].
      injection Htap as _ <-. rewrite Ht2. subst h1. simpl. set_solver.
Qed.

End TapFacts.

(** X18: when a tap of [applyDefine] returns a result for a module, the
    text it has serialised the value to is, afterwards, the text the state
    holds for the key the tap is registered under, the request of the
    module is the last of the users of that key, code generation is marked
    as done, the result has the range of the expression, and the recursion
    flag of the tap is reset. *)
Theorem tap_records_substitution rt evaluate kind d expr m h res h' :
  tapOf rt evaluate kind d expr (Some m) h = Some (Normal (Some res), h') →
  ∃ strCode p users,
    toCode rt (snd (snd d)) AsiNull (parser h) = (Normal strCode, p) ∧
    values (runState (handlerGlobals h')) !! hookKey (fst (snd d)) = Some strCode ∧
    modulesUsingKey (runState (handlerGlobals h')) !! hookKey (fst (snd d)) =
      Some (users ++ [request m]) ∧
    didCodeGeneration (handlerGlobals h') = true ∧
    evaluatedRange res = Some (range expr) ∧
    fst d ∉ flagsOf kind h'.
Proof.
  intros Htap. destruct d as [i [key code]]. simpl.
  destruct kind; simpl in Htap.
  - unfold evaluateIdentifierTap, hookCallback, hbind in Htap.
    destruct (evaluateIdentifierCallback rt evaluate i code expr h)
      as [[[[[strCode res0]|]|e] h3]|] eqn:Hcb; try discriminate.
    injection Htap as <- <-.
    unfold evaluateIdentifierCallback in Hcb.
    destruct (decide (i ∈ recurse h)) as [Hin|Hnin]; [discriminate|].
    unfold hbind in Hcb.
    destruct (withParser _ _) as [[[strCode'|e1] h1]|] eqn:Hw; try discriminate.
    destruct (evaluate strCode' h1) as [[[res1|e2] h2]|] eqn:He; try discriminate.
    injection Hcb as <- <- <-.
    unfold withParser in Hw. simpl in Hw.
    destruct (toCode rt code AsiNull (parser h)) as [r p] eqn:Ht.
    injection Hw as -> _.
    exists strCode', p,
      (default [] (modulesUsingKey (runState (handlerGlobals h2)) !! hookKey key)).
    simpl. rewrite !lookup_insert_eq. repeat split; try done. set_solver.
  - unfold evaluateTypeofTap, hookCallback, hbind in Htap.
    destruct (evaluateTypeofCallback rt evaluate i key code expr h)
      as [[[[[strCode res0]|]|e] h3]|] eqn:Hcb; try discriminate.
    injection Htap as <- <-.
    unfold evaluateTypeofCallback in Hcb.
    destruct (decide (i ∈ recurseTypeof h)) as [Hin|Hnin]; [discriminate|].
    unfold hbind in Hcb.
    destruct (withParser _ _) as [[[strCode'|e1] h1]|] eqn:Hw; try discriminate.
    destruct (evaluate _ h1) as [[[res1|e2] h2]|] eqn:He; try discriminate.
    injection Hcb as <- <- <-.
    unfold withParser in Hw. simpl in Hw.
    destruct (toCode rt code AsiNull (parser h)) as [r p] eqn:Ht.
    injection Hw as -> _.
    exists strCode', p,
      (default [] (modulesUsingKey (runState (handlerGlobals h2)) !! hookKey key)).
    simpl. rewrite !lookup_insert_eq. repeat split; try done. set_solver.
Qed.


Lemma failed_tap_declines_from_then_on_witness :
  let defines := [("a", VString "b")] in
  let d := (0, ("a", VString "b")) in
  let h' := setRecurse {[0]} sampleHandler in
  tapOf sampleTemplate (evaluate sampleTemplate failingParse defines 2)
    EvaluateIdentifier d sampleExpression (Some sampleModule) sampleHandler =
    Some (Throw (Error "Unexpected token in b"), h') ∧
  0 ∈ flagsOf EvaluateIdentifier h' ∧
  ∀ evaluate' expr' module',
    tapOf sampleTemplate evaluate' EvaluateIdentifier d expr' module' h' =
      Some (Normal None, h').
Proof.
  intros defines d h'.
  assert (H : tapOf sampleTemplate (evaluate sampleTemplate failingParse defines 2)
                EvaluateIdentifier d sampleExpression (Some sampleModule)
                sampleHandler =
              Some (Throw (Error "Unexpected token in b"), h'))
    by (vm_compute; reflexivity).
  split; [exact H|].
  apply (failed_tap_declines_from_then_on sampleTemplate failingParse defines 2
           EvaluateIdentifier d sampleExpression sampleModule sampleHandler
           (Error "Unexpected token in b") h').
  - simpl. lia.
  - vm_compute. lia.
  - exact H.
Defined.

Lemma tap_records_substitution_witness :
  let defines := [("VERSION", VString "2")] in
  let d := (0, ("VERSION", VString "2")) in
  let h' := setHandlerGlobals
              (recordSubstitution "VERSION" "2" "/src/index.js" initialGlobals)
              sampleHandler in
  let res := setRange (0, 1) unknownExpression in
  tapOf sampleTemplate (evaluate sampleTemplate sampleParse defines 2)
    EvaluateIdentifier d sampleExpression (Some sampleModule) sampleHandler =
    Some (Normal (Some res), h') ∧
  ∃ strCode p users,
    toCode sampleTemplate (VString "2") AsiNull (parser sampleHandler) =
      (Normal strCode, p) ∧
    values (runState (handlerGlobals h')) !! "VERSION" = Some strCode ∧
    modulesUsingKey (runState (handlerGlobals h')) !! "VERSION" =
      Some (users ++ [request sampleModule]) ∧
    didCodeGeneration (handlerGlobals h') = true ∧
    evaluatedRange res = Some (range sampleExpression) ∧
    0 ∉ flagsOf EvaluateIdentifier h'.
Proof.
  intros defines d h' res.
  assert (H : tapOf sampleTemplate (evaluate sampleTemplate sampleParse defines 2)
                EvaluateIdentifier d sampleExpression (Some sampleModule)
                sampleHandler = Some (Normal (Some res), h'))
    by (vm_compute; reflexivity).
  split; [exact H|].
  exact (tap_records_substitution sampleTemplate
           (evaluate sampleTemplate sampleParse defines 2) EvaluateIdentifier d
           sampleExpression sampleModule sampleHandler res h' H).
Defined.
